(** * bulk-data: the chunked export streams of [main.py]

    A shallow embedding of the FastAPI service in [main.py]: the chunk
    writer [generate_file], the two generators [get_large_data_chunks] and
    [get_data_paginated], and the three route handlers.

    Conventions of the embedding.
    - Python [int] is [Z]; [len] is [length] seen through [Z.of_nat].
    - Python [str] is [string]; each character stands for the code point
      of the same number (U+0000 .. U+00FF).
    - A row mapping ([dict(row)]) is an association list from column name
      to value, in column order.  A column value is [None], an [int], a
      [str], or the [bytes] of a BLOB, which [json.dumps] rejects with
      [TypeError].  REAL columns are outside the embedding: the text of a
      [float] is not modelled.
    - [large_table] is the list of its rows in the order the store returns
      them.  The store takes LIMIT and OFFSET as 64-bit integers and
      rejects a statement with a larger literal ([IntegrityError]).
    - An exception ends the run: a computation yields a value or the
      exception raised, together with the file system it leaves and the
      trace of what it did until then.  The generators are run until they
      are exhausted or raise.
    - The file system is a set of directories and a map from the path of
      each regular file to its text.  Folder names are single path
      components.  Opening a file fails when its folder is a regular file
      or missing, or when the path is a directory; permissions and space
      are not modelled. *)

From stdpp Require Import gmap strings list pretty.
From Stdlib Require Import Ascii ZArith Lia.

(** ** Strings *)

Definition LF : ascii := "010"%char.
Definition DQ : ascii := "034"%char.
Definition BSL : ascii := "092"%char.

(** [sep.join(items)] *)
Fixpoint str_join (sep : string) (items : list string) : string :=
  match items with
  | [] => ""
  | [x] => x
  | x :: rest => x +:+ sep +:+ str_join sep rest
  end.

(** [' ' * n] *)
Fixpoint spaces (n : nat) : string :=
  match n with
  | O => ""
  | S n' => String " " (spaces n')
  end.

Fixpoint count_char (c : ascii) (s : string) : nat :=
  match s with
  | EmptyString => 0
  | String a s' => (if decide (a = c) then 1 else 0) + count_char c s'
  end.

(** ** The [json] encoder, for the objects this program serialises *)

Inductive scalar :=
| SNone
| SInt (n : Z)
| SStr (s : string).

(** [dict(row)] *)
Abbreviation row := (list (string * scalar)).

(** What is handed to [json.dumps] / [json.dump]: a list of row dicts or
    a single dict. *)
Inductive pyobj :=
| PyList (l : list row)
| PyDict (d : row).

Definition hex_digit (n : N) : ascii :=
  match n with
  | 0 => "0" | 1 => "1" | 2 => "2" | 3 => "3" | 4 => "4" | 5 => "5"
  | 6 => "6" | 7 => "7" | 8 => "8" | 9 => "9" | 10 => "a" | 11 => "b"
  | 12 => "c" | 13 => "d" | 14 => "e" | _ => "f"
  end%char%N.

(** ['\\u{0:04x}'.format(ord(c))] *)
Definition u_escape (c : ascii) : string :=
  let n := N_of_ascii c in
  String BSL (String "u" (String "0" (String "0"
    (String (hex_digit (n / 16)) (String (hex_digit (n mod 16)) ""))))).

(** [json.encoder.ESCAPE_DCT] *)
Definition ESCAPE_DCT (c : ascii) : option string :=
  let n := N_of_ascii c in
  if decide (c = BSL) then Some (String BSL (String BSL ""))
  else if decide (c = DQ) then Some (String BSL (String DQ ""))
  else if decide (n = 8%N) then Some (String BSL "b")
  else if decide (n = 12%N) then Some (String BSL "f")
  else if decide (n = 10%N) then Some (String BSL "n")
  else if decide (n = 13%N) then Some (String BSL "r")
  else if decide (n = 9%N) then Some (String BSL "t")
  else if decide (n < 32)%N then Some (u_escape c)
  else None.

(** The characters matched by [ESCAPE_ASCII] ([ensure_ascii=True]) and by
    [ESCAPE] ([ensure_ascii=False]). *)
Definition escaped (ensure_ascii : bool) (c : ascii) : bool :=
  let n := N_of_ascii c in
  if ensure_ascii
  then bool_decide (c = BSL) || bool_decide (c = DQ)
       || negb (bool_decide (32 ≤ n)%N && bool_decide (n ≤ 126)%N)
  else bool_decide (n < 32)%N || bool_decide (c = BSL) || bool_decide (c = DQ).

Definition replace (c : ascii) : string :=
  match ESCAPE_DCT c with
  | Some s => s
  | None => u_escape c
  end.

Fixpoint escape_sub (ensure_ascii : bool) (s : string) : string :=
  match s with
  | EmptyString => ""
  | String c s' =>
      (if escaped ensure_ascii c then replace c else String c "")
      +:+ escape_sub ensure_ascii s'
  end.

(** [py_encode_basestring_ascii] / [py_encode_basestring] *)
Definition encode_basestring (ensure_ascii : bool) (s : string) : string :=
  String DQ (escape_sub ensure_ascii s +:+ String DQ "").

Definition encode_scalar (ensure_ascii : bool) (v : scalar) : string :=
  match v with
  | SNone => "null"
  | SInt n => pretty n
  | SStr s => encode_basestring ensure_ascii s
  end.

(** ['\n' + _indent * _current_indent_level], empty without [indent] *)
Definition newline_indent (indent : option nat) (level : nat) : string :=
  match indent with
  | None => ""
  | Some n => String LF (spaces (n * level))
  end.

Definition item_separator (indent : option nat) : string :=
  match indent with
  | None => ", "
  | Some _ => ","
  end.

Definition key_separator : string := ": ".

(** The shared shape of [_iterencode_list] and [_iterencode_dict]. *)
Definition encode_container (opening closing : string)
    (indent : option nat) (level : nat) (items : list string) : string :=
  match items with
  | [] => opening +:+ closing
  | _ =>
      opening +:+ newline_indent indent (S level)
      +:+ str_join (item_separator indent +:+ newline_indent indent (S level)) items
      +:+ newline_indent indent level +:+ closing
  end.

Definition encode_item (ensure_ascii : bool) (kv : string * scalar) : string :=
  encode_basestring ensure_ascii kv.1 +:+ key_separator
  +:+ encode_scalar ensure_ascii kv.2.

Definition encode_dict (ensure_ascii : bool) (indent : option nat)
    (level : nat) (d : row) : string :=
  encode_container "{" "}" indent level (map (encode_item ensure_ascii) d).

Definition encode_list (ensure_ascii : bool) (indent : option nat)
    (level : nat) (l : list row) : string :=
  encode_container "[" "]" indent level
    (map (encode_dict ensure_ascii indent (S level)) l).

(** [json.dumps(obj, ensure_ascii=..., indent=...)] *)
Definition json_dumps (obj : pyobj) (ensure_ascii : bool)
    (indent : option nat) : string :=
  match obj with
  | PyList l => encode_list ensure_ascii indent 0 l
  | PyDict d => encode_dict ensure_ascii indent 0 d
  end.

(** ** Column values as the driver returns them *)

Inductive column :=
| Value (v : scalar)
| Blob (b : string).

(** [dict(row)] *)
Abbreviation record := (list (string * column)).

(** What [json.dumps] does first: a [bytes] value anywhere is a
    [TypeError]; otherwise the rows are the ones to print. *)
Definition to_scalar (c : column) : option scalar :=
  match c with
  | Value v => Some v
  | Blob _ => None
  end.

Fixpoint to_row (d : record) : option row :=
  match d with
  | [] => Some []
  | (k, c) :: rest =>
      match to_scalar c, to_row rest with
      | Some v, Some rest' => Some ((k, v) :: rest')
      | _, _ => None
      end
  end.

Fixpoint to_rows (l : list record) : option (list row) :=
  match l with
  | [] => Some []
  | d :: rest =>
      match to_row d, to_rows rest with
      | Some r, Some rest' => Some (r :: rest')
      | _, _ => None
      end
  end.

(** Rows without a BLOB, as the driver returns them. *)
Definition plain_row (r : row) : record := map (λ kv, (kv.1, Value kv.2)) r.
Definition plain (rows : list row) : list record := map plain_row rows.

(** ** The store *)

Inductive statement :=
| SelectLimit (limit : Z)
| SelectLimitOffset (limit offset : Z)
| SelectCount.

(** The text handed to [text(...)]. *)
Definition sql (q : statement) : string :=
  match q with
  | SelectLimit n => "SELECT * FROM large_table LIMIT " +:+ pretty n
  | SelectLimitOffset n k =>
      "SELECT * FROM large_table LIMIT " +:+ pretty n +:+ " OFFSET " +:+ pretty k
  | SelectCount => "SELECT COUNT(*) FROM large_table"
  end.

(** LIMIT: a negative limit is no limit. *)
Definition sql_limit {A} (n : Z) (rows : list A) : list A :=
  if decide (n < 0)%Z then rows else take (Z.to_nat n) rows.

(** OFFSET: a negative offset is offset 0. *)
Definition sql_offset {A} (k : Z) (rows : list A) : list A :=
  drop (Z.to_nat k) rows.

Inductive result :=
| Rows (rows : list record)
| Scalar (n : Z).

(** The integers the store takes for LIMIT and OFFSET. *)
Definition int64 (n : Z) : bool :=
  bool_decide (- 2 ^ 63 ≤ n)%Z && bool_decide (n < 2 ^ 63)%Z.

Definition accepted (q : statement) : bool :=
  match q with
  | SelectLimit n => int64 n
  | SelectLimitOffset n k => int64 n && int64 k
  | SelectCount => true
  end.

(** What an accepted statement returns. *)
Definition answer (large_table : list record) (q : statement) : result :=
  match q with
  | SelectLimit n => Rows (sql_limit n large_table)
  | SelectLimitOffset n k => Rows (sql_limit n (sql_offset k large_table))
  | SelectCount => Scalar (Z.of_nat (length large_table))
  end.

Inductive exn :=
| TypeError
| IntegrityError
| FileNotFoundError
| FileExistsError
| NotADirectoryError
| IsADirectoryError.

Definition run_statement (large_table : list record) (q : statement)
    : exn + result :=
  if accepted q then inr (answer large_table q) else inl IntegrityError.

(** [result.mappings()] *)
Definition mappings (r : result) : list record :=
  match r with
  | Rows rows => rows
  | Scalar _ => []
  end.

(** [result.scalar()] *)
Definition scalar_of (r : result) : Z :=
  match r with
  | Rows _ => 0
  | Scalar n => n
  end.

(** ** The world: file system, and the trace of what the program did *)

Record filesystem := Filesystem {
  dirs : gset string;
  files : gmap string string
}.

Inductive event :=
| Yield (line : string)
| Stdout (msg : string)
| Execute (q : statement)
| Makedirs (path : string)
| WriteFile (path : string) (text : string).

(** How a computation ends: with a value or with the exception raised,
    the file system it leaves, and what it did. *)
Record outcome (A : Type) := Ended {
  value : exn + A;
  disk : filesystem;
  trace : list event
}.
Arguments Ended {A} _ _ _.
Arguments value {A} _.
Arguments disk {A} _.
Arguments trace {A} _.

(** A computation that ended normally. *)
Definition Outcome {A} (a : A) (fs : filesystem) (t : list event) : outcome A :=
  Ended (inr a) fs t.

Definition M (A : Type) : Type := filesystem → outcome A.

Definition ret {A} (a : A) : M A := λ fs, Outcome a fs [].

Definition raise {A} (e : exn) : M A := λ fs, Ended (inl e) fs [].

Definition bind {A B} (m : M A) (k : A → M B) : M B := λ fs,
  let r1 := m fs in
  match value r1 with
  | inl e => Ended (inl e) (disk r1) (trace r1)
  | inr a =>
      let r2 := k a (disk r1) in
      Ended (value r2) (disk r2) (trace r1 ++ trace r2)
  end.

Notation "x <- m ;; k" := (bind m (λ x, k))
  (at level 100, m at next level, right associativity).
Notation "m ;;; k" := (bind m (λ _, k))
  (at level 100, right associativity).

Definition emit (e : event) : M unit := λ fs, Outcome tt fs [e].

Definition yield_ (line : string) : M unit := emit (Yield line).
Definition print (msg : string) : M unit := emit (Stdout msg).

(** A path is there when it is a directory or a regular file; the empty
    path never is. *)
Definition path_exists (fs : filesystem) (path : string) : bool :=
  bool_decide (path ≠ "")
  && (bool_decide (path ∈ dirs fs) || bool_decide (is_Some (files fs !! path))).

(** [os.path.exists] *)
Definition os_path_exists (path : string) : M bool := λ fs,
  Outcome (path_exists fs path) fs [].

(** [os.makedirs], without [exist_ok] *)
Definition os_makedirs (path : string) : M unit := λ fs,
  if bool_decide (path = "") then Ended (inl FileNotFoundError) fs []
  else if path_exists fs path then Ended (inl FileExistsError) fs []
  else Outcome tt (Filesystem ({[path]} ∪ dirs fs) (files fs)) [Makedirs path].

(** [with open(path, "w") as file: file.write(text)], for a [path]
    directly under [folder] *)
Definition write_file (folder path text : string) : M unit := λ fs,
  if bool_decide (is_Some (files fs !! folder))
  then Ended (inl NotADirectoryError) fs []
  else if bool_decide (folder ∉ dirs fs)
  then Ended (inl FileNotFoundError) fs []
  else if bool_decide (path ∈ dirs fs)
  then Ended (inl IsADirectoryError) fs []
  else Outcome tt (Filesystem (dirs fs) (<[path := text]> (files fs)))
                  [WriteFile path text].
(** [s.startswith("/")] and [s.endswith("/")] *)
Definition starts_with_slash (s : string) : bool :=
  match s with
  | String c _ => bool_decide (c = "/"%char)
  | EmptyString => false
  end.

Fixpoint ends_with_slash (s : string) : bool :=
  match s with
  | EmptyString => false
  | String c EmptyString => bool_decide (c = "/"%char)
  | String _ s' => ends_with_slash s'
  end.

(** [os.path.join(a, b)] ([posixpath]) *)
Definition os_path_join (a b : string) : string :=
  if starts_with_slash b then b
  else if bool_decide (a = "") || ends_with_slash a then a +:+ b
  else a +:+ "/" +:+ b.

(** [os.path.abspath] of a path with no [.], [..] or doubled slash to
    normalise, under a working directory that has none either. *)
Definition os_path_abspath (cwd path : string) : string := os_path_join cwd path.

(** [connection.execute(text(query))] *)
Definition execute (large_table : list record) (q : statement) : M result := λ fs,
  Ended (run_statement large_table q) fs [Execute q].

(** ** The program *)

Section Program.
(** The rows of [large_table] behind [engine], and the working directory
    of the process. *)
Variable large_table : list record.
Variable cwd : string.

(** [chunk] is a list [json.dumps] has accepted: both callers pass the
    list they have just serialised. *)
Definition generate_file (chunk : list row) (chunk_number : Z)
    (output_folder : string) : M unit :=
  present <- os_path_exists output_folder ;;
  (if negb present then os_makedirs output_folder else ret tt) ;;;
  let file_name :=
    os_path_join output_folder ("part_" +:+ pretty chunk_number +:+ ".json") in
  write_file output_folder file_name (json_dumps (PyList chunk) false (Some 4)) ;;;
  let full_path := os_path_abspath cwd file_name in
  print ("Processing and saving chunk number " +:+ pretty chunk_number
         +:+ " into directory: " +:+ full_path).

(** The text of one chunk as it is yielded: [json.dumps(chunk) + "\n"]. *)
Definition chunk_line (chunk : list row) : string :=
  json_dumps (PyList chunk) true None +:+ String LF "".

(** A status object as it is yielded: [json.dumps({...}) + "\n"]. *)
Definition status_line (d : row) : string :=
  json_dumps (PyDict d) true None +:+ String LF "".

(** [json.dumps(chunk)] on the buffer: the rows to print, or
    [TypeError]. *)
Definition serialise (chunk : list record) : M (list row) :=
  match to_rows chunk with
  | Some rows => ret rows
  | None => raise TypeError
  end.

(** [if chunk:] on a list *)
Definition truthy {A} (l : list A) : bool :=
  match l with
  | [] => false
  | _ :: _ => true
  end.

(** The [for row in result.mappings()] loop of [get_large_data_chunks];
    the value is the buffer and the counter after the last row. *)
Fixpoint chunk_loop (chunk_size : Z) (rows : list record)
    (chunk : list record) (chunk_number : Z) : M (list record * Z) :=
  match rows with
  | [] => ret (chunk, chunk_number)
  | r :: rest =>
      let chunk := chunk ++ [r] in
      if decide (Z.of_nat (length chunk) >= chunk_size)%Z then
        printed <- serialise chunk ;;
        yield_ (chunk_line printed) ;;;
        print ("Sent chunk " +:+ pretty chunk_number) ;;;
        generate_file printed chunk_number "chunks" ;;;
        chunk_loop chunk_size rest [] (chunk_number + 1)
      else
        chunk_loop chunk_size rest chunk chunk_number
  end.

Definition get_large_data_chunks (chunk_size : Z) : M unit :=
  let query := SelectLimit 10000 in
  result <- execute large_table query ;;
  st <- chunk_loop chunk_size (mappings result) [] 1 ;;
  let chunk := st.1 in
  (if truthy chunk
   then printed <- serialise chunk ;; yield_ (chunk_line printed)
   else ret tt) ;;;
  print "All data has been sent".

Definition no_more_data : row := [("message", SStr "No more data available")].

(** The [chunk_number += 1] after [generate_file] is the last statement of
    its branch; the incremented counter is never read. *)
Definition get_data_paginated (page chunk_size : Z) : M unit :=
  let offset := ((page - 1) * chunk_size)%Z in
  let query := SelectLimitOffset chunk_size offset in
  result <- execute large_table query ;;
  let chunk := foldl (λ chunk r, chunk ++ [r]) [] (mappings result) in
  let chunk_number := 1%Z in
  if truthy chunk then
    printed <- serialise chunk ;;
    yield_ (chunk_line printed) ;;;
    generate_file printed chunk_number "chunks_paginated"
  else
    yield_ (status_line no_more_data).

(** What a handler hands back to the framework. *)
Inductive response :=
| StreamingResponse (content : M unit) (media_type : string)
| JSONResponse (content : row)
| HTTPException (status_code : Z) (detail : string).

(** [GET /bulk-data]; the generator runs with its default
    [chunk_size=1000]. *)
Definition get_bulk_data : M response :=
  ret (StreamingResponse (get_large_data_chunks 1000) "application/json").

(** [GET /bulk-data-paginated]; the source names this handler
    [get_bulk_data] as well. *)
Definition get_bulk_data_paginated (page chunk_size : Z) : M response :=
  if decide (page < 1 ∨ chunk_size < 1)%Z then
    ret (HTTPException 400 "Page and chunk_size must be greater than 0")
  else
    ret (StreamingResponse (get_data_paginated page chunk_size) "application/json").

(** [GET /count-records] *)
Definition count_records : M response :=
  result <- execute large_table SelectCount ;;
  let total_records := scalar_of result in
  ret (JSONResponse [("total_records", SInt total_records)]).

(** The framework: run the handler, then pull the body of a streaming
    response until it is exhausted or raises. *)
Definition serve (handler : M response) : M response :=
  r <- handler ;;
  match r with
  | StreamingResponse content _ => content ;;; ret r
  | _ => ret r
  end.
End Program.

(** ** Reading a trace *)

Definition yielded (t : list event) : list string :=
  omap (λ e, match e with Yield line => Some line | _ => None end) t.

Definition written (t : list event) : list (string * string) :=
  omap (λ e, match e with WriteFile p s => Some (p, s) | _ => None end) t.

Definition executed (t : list event) : list statement :=
  omap (λ e, match e with Execute q => Some q | _ => None end) t.

Definition empty_fs : filesystem := Filesystem ∅ ∅.

Definition demo_row (i : nat) : row := [("id", SInt (Z.of_nat i)); ("name", SStr "a")].
Definition demo_table (n : nat) : list row := map demo_row (seq 1 n).

(** [part_<n>.json] under a folder, and the text [json.dump] puts there. *)
Definition part_path (folder : string) (n : Z) : string :=
  os_path_join folder ("part_" +:+ pretty n +:+ ".json").

Definition file_text (chunk : list row) : string :=
  json_dumps (PyList chunk) false (Some 4).

(** ** The chunking, without its effects *)

(** The chunks the loop of [get_large_data_chunks] flushes, and the buffer
    it is left with. *)
Fixpoint split_chunks {A} (chunk_size : Z) (rows chunk : list A)
    : list (list A) * list A :=
  match rows with
  | [] => ([], chunk)
  | r :: rest =>
      let chunk := chunk ++ [r] in
      if decide (Z.of_nat (length chunk) >= chunk_size)%Z then
        let p := split_chunks chunk_size rest [] in (chunk :: p.1, p.2)
      else
        split_chunks chunk_size rest chunk
  end.

(** Every chunk of a run, the short last one included. *)
Definition chunks_of {A} (chunk_size : Z) (rows : list A) : list (list A) :=
  let p := split_chunks chunk_size rows [] in
  p.1 ++ (if truthy p.2 then [p.2] else []).

(** The rows the full dump reads: the result of its one statement. *)
Definition full_dump_rows (large_table : list record) : list record :=
  mappings (answer large_table (SelectLimit 10000)).

(** The rows of one page: [LIMIT chunk_size OFFSET (page - 1) * chunk_size]. *)
Definition page_rows (large_table : list record) (page chunk_size : Z)
    : list record :=
  mappings (answer large_table
              (SelectLimitOffset chunk_size ((page - 1) * chunk_size))).

(** [rows[offset : offset + len]] *)
Definition slice {A} (rows : list A) (offset len : Z) : list A :=
  take (Z.to_nat len) (drop (Z.to_nat offset) rows).

(** Integer ceiling of [a / b], for [b > 0]. *)
Definition ceil_div (a b : Z) : Z := ((a + b - 1) / b)%Z.

(** ** Where a run can fail *)

(** [generate_file] can write [part_<n>.json] under the folder: the folder
    has a name and is no regular file, and the path is no directory. *)
Definition writable (fs : filesystem) (folder : string) (n : Z) : bool :=
  bool_decide (folder ≠ "")
  && bool_decide (files fs !! folder = None)
  && bool_decide (part_path folder n ∉ dirs fs).

(** [generate_file] creates the folder: it has a name and is not there. *)
Definition creates (fs : filesystem) (folder : string) : bool :=
  bool_decide (folder ≠ "") && negb (path_exists fs folder).


(** The chunks a run streams out of the full chunks it meets, numbered
    from [n]: it stops before a chunk that does not serialise and after a
    chunk whose file cannot be written. *)
Fixpoint streamed (ok : Z → bool) (n : Z) (chunks : list (list record))
    : list (list row) :=
  match chunks with
  | [] => []
  | c :: rest =>
      match to_rows c with
      | None => []
      | Some rows => rows :: (if ok n then streamed ok (n + 1) rest else [])
      end
  end.

(** The chunks it persists, with their numbers. *)
Fixpoint persisted (ok : Z → bool) (n : Z) (chunks : list (list record))
    : list (Z * list row) :=
  match chunks with
  | [] => []
  | c :: rest =>
      match to_rows c with
      | None => []
      | Some rows =>
          if ok n then (n, rows) :: persisted ok (n + 1) rest else []
      end
  end.

(** Whether it gets past all of them. *)
Fixpoint completes (ok : Z → bool) (n : Z) (chunks : list (list record))
    : bool :=
  match chunks with
  | [] => true
  | c :: rest =>
      match to_rows c with
      | None => false
      | Some _ => ok n && completes ok (n + 1) rest
      end
  end.

(** Whether a run gets as far as [generate_file]: there is a full chunk
    and the first one serialises. *)
Definition reaches (chunks : list (list record)) : bool :=
  match chunks with
  | [] => false
  | c :: _ => bool_decide (is_Some (to_rows c))
  end.

(** The file system after [generate_file] on a folder it can write. *)
Definition after_write (fs : filesystem) (folder : string) (n : Z)
    (text : string) : filesystem :=
  Filesystem (if creates fs folder then {[folder]} ∪ dirs fs else dirs fs)
             (<[part_path folder n := text]> (files fs)).

(** The file system after [generate_file] on a folder it cannot write. *)
Definition after_failure (fs : filesystem) (folder : string) : filesystem :=
  Filesystem (if creates fs folder then {[folder]} ∪ dirs fs else dirs fs)
             (files fs).

(** What [generate_file] does before it writes, and when it writes. *)
Definition makedirs_events (fs : filesystem) (folder : string) : list event :=
  if creates fs folder then [Makedirs folder] else [].

Definition write_events (cwd folder : string) (n : Z) (text : string)
    : list event :=
  [WriteFile (part_path folder n) text;
   Stdout ("Processing and saving chunk number " +:+ pretty n
           +:+ " into directory: " +:+ os_path_abspath cwd (part_path folder n))].

(** What [get_large_data_chunks] does after its loop: the rest of the
    buffer is serialised and yielded, and the last message printed. *)
Definition closing_events (v : exn + (list record * Z)) : list event :=
  match v with
  | inl _ => []
  | inr st =>
      if truthy st.1 then
        match to_rows st.1 with
        | Some p => [Yield (chunk_line p); Stdout "All data has been sent"]
        | None => []
        end
      else [Stdout "All data has been sent"]
  end.

(** The short last chunk of a run that gets to it. *)
Definition last_streamed (completed : bool) (rest : list record)
    : list (list row) :=
  if completed && truthy rest then
    match to_rows rest with
    | Some p => [p]
    | None => []
    end
  else [].

(** Every chunk a full dump streams. *)
Definition full_dump_streamed (fs : filesystem) (chunk_size : Z)
    (rows : list record) : list (list row) :=
  streamed (writable fs "chunks") 1 (split_chunks chunk_size rows []).1
  ++ last_streamed
       (completes (writable fs "chunks") 1 (split_chunks chunk_size rows []).1)
       (split_chunks chunk_size rows []).2.

(** The statement of one page. *)
Definition page_query (page chunk_size : Z) : statement :=
  SelectLimitOffset chunk_size ((page - 1) * chunk_size).

(** A file system where a regular file is in the way of a folder. *)
Definition blocked_fs (folder : string) : filesystem :=
  Filesystem ∅ {[folder := ""]}.


(** ** Reading a run *)

(** The files after the writes of a run, applied in order. *)
Definition apply_writes (ws : list (string * string))
    (m : gmap string string) : gmap string string :=
  foldl (λ m pw, <[pw.1 := pw.2]> m) m ws.

(** Whether the yields and the file writes of a trace take turns;
    [pending] says that a line has been yielded whose file is not written
    yet. *)
Fixpoint alternating (pending : bool) (t : list event) : bool :=
  match t with
  | [] => true
  | Yield _ :: t' => negb pending && alternating true t'
  | WriteFile _ _ :: t' => pending && alternating false t'
  | _ :: t' => alternating pending t'
  end.

Fixpoint pending_after (pending : bool) (t : list event) : bool :=
  match t with
  | [] => pending
  | Yield _ :: t' => pending_after true t'
  | WriteFile _ _ :: t' => pending_after false t'
  | _ :: t' => pending_after pending t'
  end.

(** The printable ASCII characters, [' '] to ['~']. *)
Definition printable (c : ascii) : bool :=
  bool_decide (32 ≤ N_of_ascii c)%N && bool_decide (N_of_ascii c ≤ 126)%N.

Fixpoint all_chars (P : ascii → bool) (s : string) : bool :=
  match s with
  | EmptyString => true
  | String c s' => P c && all_chars P s'
  end.

(** The directories a run created, in order. *)
Definition made_dirs (t : list event) : list string :=
  omap (λ e, match e with Makedirs p => Some p | _ => None end) t.

(** ** Reading encoded text back *)

(** The characters of a printed [int]. *)
Definition int_char (c : ascii) : bool :=
  bool_decide (c = "-"%char)
  || bool_decide (48 ≤ N_of_ascii c)%N && bool_decide (N_of_ascii c ≤ 57)%N.

(** A text that does not go on with a character of [P]. *)
Definition stops (P : ascii → bool) (s : string) : bool :=
  match s with
  | EmptyString => true
  | String c _ => negb (P c)
  end.

Definition unhex (c : ascii) : option N :=
  let n := N_of_ascii c in
  if bool_decide (48 ≤ n)%N && bool_decide (n ≤ 57)%N then Some (n - 48)%N
  else if bool_decide (97 ≤ n)%N && bool_decide (n ≤ 102)%N then Some (n - 87)%N
  else None.

Definition unescape_simple (e : ascii) : option ascii :=
  if decide (e = BSL) then Some BSL
  else if decide (e = DQ) then Some DQ
  else if decide (e = "b"%char) then Some (ascii_of_N 8)
  else if decide (e = "f"%char) then Some (ascii_of_N 12)
  else if decide (e = "n"%char) then Some (ascii_of_N 10)
  else if decide (e = "r"%char) then Some (ascii_of_N 13)
  else if decide (e = "t"%char) then Some (ascii_of_N 9)
  else None.

(** Reads escaped text up to its closing quote: the characters it stands
    for, and the text after the quote. *)
Fixpoint unescape (s : string) : option (string * string) :=
  match s with
  | EmptyString => None
  | String c s1 =>
      if decide (c = DQ) then Some (EmptyString, s1)
      else if decide (c = BSL) then
        match s1 with
        | EmptyString => None
        | String e s2 =>
            if decide (e = "u"%char) then
              match s2 with
              | String _ (String _ (String h1 (String h2 s3))) =>
                  match unhex h1, unhex h2, unescape s3 with
                  | Some a, Some b, Some (t, r) =>
                      Some (String (ascii_of_N (16 * a + b)) t, r)
                  | _, _, _ => None
                  end
              | _ => None
              end
            else
              match unescape_simple e, unescape s2 with
              | Some c', Some (t, r) => Some (String c' t, r)
              | _, _ => None
              end
        end
      else
        match unescape s1 with
        | Some (t, r) => Some (String c t, r)
        | None => None
        end
  end.

(** The items of a container after the first, up to its end. *)
Fixpoint items_tail (sep closing : string) (items : list string) : string :=
  match items with
  | [] => closing
  | x :: rest => sep +:+ x +:+ items_tail sep closing rest
  end.

(** What separates two items of a container, and what ends it. *)
Definition items_sep (indent : option nat) (level : nat) : string :=
  item_separator indent +:+ newline_indent indent (S level).

Definition items_closing (c : ascii) (indent : option nat) (level : nat)
    : string :=
  newline_indent indent level +:+ String c "".

(** * Properties *)

(** ** Reading a trace *)

Lemma yielded_app t1 t2 : yielded (t1 ++ t2) = yielded t1 ++ yielded t2.
Proof. apply omap_app. Qed.

Lemma written_app t1 t2 : written (t1 ++ t2) = written t1 ++ written t2.
Proof. apply omap_app. Qed.

Lemma executed_app t1 t2 : executed (t1 ++ t2) = executed t1 ++ executed t2.
Proof. apply omap_app. Qed.

Lemma foldl_snoc {A} (acc rows : list A) :
  foldl (λ chunk r, chunk ++ [r]) acc rows = acc ++ rows.
Proof.
  revert acc. induction rows as [|r rest IH]; intros acc; simpl.
  - by rewrite app_nil_r.
  - rewrite IH. by rewrite <-(assoc_L (++)).
Qed.

(** ** The chunking *)

Section Chunking.
Context {A : Type}.
Implicit Types (rows chunk : list A) (cs : Z).

(** Nothing is lost, duplicated or reordered, whatever the chunk size. *)
Lemma split_chunks_concat cs rows chunk :
  concat (split_chunks cs rows chunk).1 ++ (split_chunks cs rows chunk).2
  = chunk ++ rows.
Proof.
  revert chunk. induction rows as [|r rest IH]; intros chunk; simpl.
  - by rewrite app_nil_r.
  - destruct (decide _); simpl.
    + rewrite <-(assoc_L (++)), IH. simpl. by rewrite <-(assoc_L (++)).
    + rewrite IH. by rewrite <-(assoc_L (++)).
Qed.

(** With a positive chunk size every flushed chunk is exactly full and
    the buffer stays below the chunk size. *)
Lemma split_chunks_sizes cs rows chunk :
  (1 ≤ cs)%Z → (Z.of_nat (length chunk) < cs)%Z →
  Forall (λ c, Z.of_nat (length c) = cs) (split_chunks cs rows chunk).1
  ∧ (Z.of_nat (length (split_chunks cs rows chunk).2) < cs)%Z.
Proof.
  intros Hcs. revert chunk.
  induction rows as [|r rest IH]; intros chunk Hlen; simpl.
  - split; [constructor | done].
  - destruct (decide _) as [Hge|Hlt]; simpl.
    + destruct (IH []) as [IH1 IH2]; [simpl; lia|].
      split; [|done]. constructor; [|done].
      rewrite length_app in *. simpl in *. lia.
    + apply IH. lia.
Qed.

Lemma length_concat_full cs (l : list (list A)) :
  Forall (λ c, Z.of_nat (length c) = cs) l →
  Z.of_nat (length (concat l)) = (cs * Z.of_nat (length l))%Z.
Proof.
  induction 1 as [|c l Hc _ IH]; simpl; [lia|].
  rewrite length_app. lia.
Qed.

(** How many full chunks, and how much is left over. *)
Lemma split_chunks_count cs rows :
  (1 ≤ cs)%Z →
  Z.of_nat (length (split_chunks cs rows []).1) = (Z.of_nat (length rows) / cs)%Z
  ∧ Z.of_nat (length (split_chunks cs rows []).2) = (Z.of_nat (length rows) mod cs)%Z.
Proof.
  intros Hcs.
  destruct (split_chunks_sizes cs rows []) as [Hfull Hrem]; [done|simpl; lia|].
  pose proof (split_chunks_concat cs rows []) as Hcat.
  apply (f_equal length) in Hcat. rewrite length_app in Hcat. simpl in Hcat.
  pose proof (length_concat_full _ _ Hfull) as Hlen.
  set (k := Z.of_nat (length (split_chunks cs rows []).1)) in *.
  set (m := Z.of_nat (length (split_chunks cs rows []).2)) in *.
  assert (Z.of_nat (length rows) = cs * k + m)%Z as -> by lia.
  split.
  - apply (Z.div_unique_pos _ _ k m); lia.
  - apply (Z.mod_unique_pos _ _ k m); lia.
Qed.

Lemma chunks_of_concat cs rows : concat (chunks_of cs rows) = rows.
Proof.
  pose proof (split_chunks_concat cs rows []) as Hcat. simpl in Hcat.
  unfold chunks_of. simpl. rewrite concat_app.
  destruct (split_chunks cs rows []).2; simpl; [done|].
  by rewrite app_nil_r.
Qed.

Lemma ceil_div_split a b :
  (0 ≤ a)%Z → (1 ≤ b)%Z →
  ceil_div a b = (a / b + if decide (a mod b = 0) then 0 else 1)%Z.
Proof.
  intros Ha Hb. unfold ceil_div.
  pose proof (Z.div_mod a b ltac:(lia)) as Hdm.
  pose proof (Z.mod_pos_bound a b ltac:(lia)) as Hm.
  destruct (decide _) as [H0|Hn0]; symmetry.
  - apply (Z.div_unique_pos _ _ _ (b - 1)); lia.
  - apply (Z.div_unique_pos _ _ _ (a mod b - 1)); lia.
Qed.

Lemma chunks_of_length cs rows :
  (1 ≤ cs)%Z →
  Z.of_nat (length (chunks_of cs rows)) = ceil_div (Z.of_nat (length rows)) cs.
Proof.
  intros Hcs. rewrite ceil_div_split by lia.
  destruct (split_chunks_count cs rows Hcs) as [Hk Hm].
  unfold chunks_of. simpl. rewrite length_app, Nat2Z.inj_add, Hk. f_equal.
  rewrite <-Hm. destruct (split_chunks cs rows []).2;
    case_decide; simpl in *; lia.
Qed.


End Chunking.

(** ** The store *)

Lemma full_dump_rows_take large_table :
  full_dump_rows large_table = take (Z.to_nat 10000) large_table.
Proof. reflexivity. Qed.

Lemma full_dump_rows_all large_table :
  (Z.of_nat (length large_table) ≤ 10000)%Z →
  full_dump_rows large_table = large_table.
Proof. intros H. rewrite full_dump_rows_take. apply take_ge. lia. Qed.

Lemma full_dump_rows_length large_table :
  Z.of_nat (length (full_dump_rows large_table))
  = Z.min (Z.of_nat (length large_table)) 10000.
Proof. rewrite full_dump_rows_take, length_take. lia. Qed.

Lemma page_rows_slice large_table page chunk_size :
  (1 ≤ page)%Z → (1 ≤ chunk_size)%Z →
  let R := Z.of_nat (length large_table) in
  let offset := ((page - 1) * chunk_size)%Z in
  page_rows large_table page chunk_size
  = slice large_table offset (Z.min chunk_size (R - offset)).
Proof.
  intros Hp Hc R offset. unfold page_rows, slice. simpl.
  unfold sql_limit, sql_offset. fold offset. rewrite decide_False by lia.
  assert (0 ≤ offset)%Z by (unfold offset; nia).
  destruct (decide (chunk_size ≤ R - offset)%Z).
  - by rewrite Z.min_l.
  - rewrite Z.min_r by lia.
    rewrite !take_ge; [done|rewrite length_drop; unfold R; lia..].
Qed.

Lemma page_rows_nonempty large_table page chunk_size :
  (1 ≤ page)%Z → (1 ≤ chunk_size)%Z →
  ((page - 1) * chunk_size < Z.of_nat (length large_table))%Z →
  page_rows large_table page chunk_size ≠ [].
Proof.
  intros Hp Hc Ho E. apply (f_equal length) in E. revert E.
  rewrite page_rows_slice by done. unfold slice.
  rewrite length_take, length_drop. simpl. nia.
Qed.

Lemma page_rows_empty large_table page chunk_size :
  (1 ≤ page)%Z → (1 ≤ chunk_size)%Z →
  (Z.of_nat (length large_table) ≤ (page - 1) * chunk_size)%Z →
  page_rows large_table page chunk_size = [].
Proof.
  intros Hp Hc Ho. rewrite page_rows_slice by done. unfold slice.
  rewrite drop_ge by nia. apply take_nil.
Qed.
(** An empty table has no page. *)
Lemma page_rows_empty_table page chunk_size : page_rows [] page chunk_size = [].
Proof.
  unfold page_rows. simpl. unfold sql_limit, sql_offset.
  rewrite drop_nil. case_decide; [done|apply take_nil].
Qed.

(** ** The compact encoding has no line break *)

Lemma count_char_app c a b :
  count_char c (a +:+ b) = count_char c a + count_char c b.
Proof. induction a as [|x a IH]; simpl; [done|]. rewrite IH. lia. Qed.

Lemma pretty_N_go_newlines x s :
  count_char LF (pretty_N_go x s) = count_char LF s.
Proof.
  revert s. induction (N.lt_wf_0 x) as [x _ IH]; intros s.
  assert (x = 0 ∨ 0 < x)%N as [->|Hpos] by lia.
  - by rewrite pretty_N_go_0.
  - rewrite pretty_N_go_step by done. rewrite IH by (by apply N.div_lt).
    simpl. unfold pretty_N_char. by repeat case_match.
Qed.

Lemma pretty_N_newlines (x : N) : count_char LF (pretty x) = 0.
Proof.
  unfold pretty, pretty_N. case_decide; [done|]. by rewrite pretty_N_go_newlines.
Qed.

Lemma pretty_Z_newlines (n : Z) : count_char LF (pretty n) = 0.
Proof.
  destruct n as [|p|p]; unfold pretty, pretty_Z; [done|..].
  - apply pretty_N_newlines.
  - rewrite count_char_app. simpl. apply pretty_N_newlines.
Qed.

Lemma escape_char_newlines c :
  count_char LF (if escaped true c then replace c else String c "") = 0.
Proof. by destruct c as [[] [] [] [] [] [] [] []]. Qed.

Lemma escape_sub_newlines s : count_char LF (escape_sub true s) = 0.
Proof.
  induction s as [|c s IH]; [done|]. cbn [escape_sub].
  by rewrite count_char_app, escape_char_newlines, IH.
Qed.

Lemma encode_basestring_newlines s :
  count_char LF (encode_basestring true s) = 0.
Proof.
  unfold encode_basestring. cbn [count_char].
  by rewrite count_char_app, escape_sub_newlines.
Qed.

Lemma encode_scalar_newlines v : count_char LF (encode_scalar true v) = 0.
Proof.
  destruct v; simpl; [done|apply pretty_Z_newlines|apply encode_basestring_newlines].
Qed.

Lemma encode_item_newlines kv : count_char LF (encode_item true kv) = 0.
Proof.
  unfold encode_item.
  by rewrite !count_char_app, encode_basestring_newlines, encode_scalar_newlines.
Qed.

Lemma str_join_newlines sep items :
  count_char LF sep = 0 →
  Forall (λ s, count_char LF s = 0) items →
  count_char LF (str_join sep items) = 0.
Proof.
  intros Hsep. induction 1 as [|x items Hx Hitems IH]; [done|].
  destruct items as [|y items]; [done|].
  change (str_join sep (x :: y :: items))
    with (x +:+ sep +:+ str_join sep (y :: items)).
  by rewrite !count_char_app, Hx, Hsep, IH.
Qed.

Lemma encode_container_newlines opening closing level items :
  count_char LF opening = 0 → count_char LF closing = 0 →
  Forall (λ s, count_char LF s = 0) items →
  count_char LF (encode_container opening closing None level items) = 0.
Proof.
  intros Ho Hc Hitems. unfold encode_container.
  destruct items as [|x items]; rewrite !count_char_app, ?Ho, ?Hc; [done|].
  by rewrite str_join_newlines.
Qed.

Lemma encode_dict_newlines level d :
  count_char LF (encode_dict true None level d) = 0.
Proof.
  apply encode_container_newlines; [done..|].
  apply Forall_map, Forall_true. intros kv. apply encode_item_newlines.
Qed.

Lemma json_dumps_newlines obj : count_char LF (json_dumps obj true None) = 0.
Proof.
  destruct obj as [l|d]; simpl; [|apply encode_dict_newlines].
  apply encode_container_newlines; [done..|].
  apply Forall_map, Forall_true. intros d. apply encode_dict_newlines.
Qed.

(** A yielded line holds one line break, its last character. *)
Lemma chunk_line_newlines chunk : count_char LF (chunk_line chunk) = 1.
Proof. unfold chunk_line. by rewrite count_char_app, json_dumps_newlines. Qed.

Lemma status_line_newlines d : count_char LF (status_line d) = 1.
Proof. unfold status_line. by rewrite count_char_app, json_dumps_newlines. Qed.

Lemma part_path_chunks n :
  part_path "chunks" n = "chunks/part_" +:+ pretty n +:+ ".json".
Proof. reflexivity. Qed.

Lemma part_path_chunks_paginated n :
  part_path "chunks_paginated" n = "chunks_paginated/part_" +:+ pretty n +:+ ".json".
Proof. reflexivity. Qed.

Lemma string_app_length a b :
  String.length (a +:+ b) = String.length a + String.length b.
Proof. induction a as [|c a IH]; simpl; [done|]. by rewrite IH. Qed.



Lemma part_path_folders_differ n m :
  part_path "chunks" n ≠ part_path "chunks_paginated" m.
Proof. rewrite part_path_chunks, part_path_chunks_paginated. discriminate. Qed.

(** ** More on the chunking *)

Section ChunkingMore.
Context {A : Type}.
Implicit Types (rows chunk : list A) (cs : Z).



Lemma chunks_of_nil_iff cs rows : chunks_of cs rows = [] ↔ rows = [].
Proof.
  split.
  - intros H. rewrite <-(chunks_of_concat cs rows). by rewrite H.
  - intros ->. reflexivity.
Qed.


Lemma chunks_of_bounds cs rows :
  (1 ≤ cs)%Z →
  Forall (λ c, 1 ≤ Z.of_nat (length c) ≤ cs)%Z (chunks_of cs rows).
Proof.
  intros Hcs.
  destruct (split_chunks_sizes cs rows []) as [Hfull Hrem]; [done|simpl; lia|].
  unfold chunks_of. cbv zeta. apply Forall_app. split.
  - eapply Forall_impl; [exact Hfull|]. simpl. lia.
  - destruct (split_chunks cs rows []).2; repeat constructor; simpl in *; lia.
Qed.





End ChunkingMore.

(** ** Writes and the file system *)

Lemma apply_writes_cons p v ws m :
  apply_writes ((p, v) :: ws) m = apply_writes ws (<[p := v]> m).
Proof. reflexivity. Qed.

(** A path no write names keeps its entry. *)
Lemma apply_writes_lookup_other ws m p :
  p ∉ ws.*1 → apply_writes ws m !! p = m !! p.
Proof.
  revert m. induction ws as [|[q v] ws IH]; intros m Hp; [done|].
  rewrite fmap_cons in Hp. apply not_elem_of_cons in Hp as [Hne Hp].
  rewrite apply_writes_cons, IH by done. by apply lookup_insert_ne.
Qed.


(** The same writes a second time change nothing. *)
Lemma apply_writes_twice ws m :
  apply_writes ws (apply_writes ws m) = apply_writes ws m.
Proof.
  assert (∀ ws m p,
    apply_writes ws m !! p
    = match last (filter (λ pw, pw.1 = p) ws) with
      | Some pw => Some pw.2
      | None => m !! p
      end) as Hlook.
  { clear. intros ws. induction ws as [|[q v] ws IH]; intros m p; [done|].
    rewrite apply_writes_cons, IH, filter_cons. simpl.
    destruct (decide (q = p)) as [->|Hne].
    - rewrite last_cons. destruct (last _); [done|]. apply lookup_insert_eq.
    - destruct (last _); [done|]. by apply lookup_insert_ne. }
  apply map_eq. intros p. rewrite (Hlook ws (apply_writes ws m)), (Hlook ws m).
  by destruct (last _).
Qed.

Lemma filesystem_eq (a b : filesystem) :
  dirs a = dirs b → files a = files b → a = b.
Proof. destruct a, b. simpl. by intros -> ->. Qed.

(** ** The order of yields and writes *)

Lemma alternating_app b t1 t2 :
  alternating b (t1 ++ t2)
  = alternating b t1 && alternating (pending_after b t1) t2.
Proof.
  revert b. induction t1 as [|e t1 IH]; intros b; [done|].
  destruct e; simpl; rewrite ?IH; by rewrite ?andb_assoc.
Qed.

Lemma pending_after_app b t1 t2 :
  pending_after b (t1 ++ t2) = pending_after (pending_after b t1) t2.
Proof.
  revert b. induction t1 as [|e t1 IH]; intros b; [done|].
  destruct e; simpl; by rewrite ?IH.
Qed.

(** In a trace whose yields and writes take turns, the yields lead the
    writes by the lines still pending. *)
Lemma alternating_counts b t :
  alternating b t = true →
  length (yielded t) + (if b then 1 else 0)
  = length (written t) + (if pending_after b t then 1 else 0).
Proof.
  revert b. induction t as [|e t IH]; intros b H; [done|].
  destruct e; simpl in *; try by apply IH.
  - apply andb_true_iff in H as [Hb H]. destruct b; [done|].
    specialize (IH true H). simpl in *. lia.
  - apply andb_true_iff in H as [Hb H]. destruct b; [|done].
    specialize (IH false H). simpl in *. lia.
Qed.

Lemma alternating_prefix_counts t p :
  alternating false t = true → p `prefix_of` t →
  length (written p) ≤ length (yielded p) ≤ length (written p) + 1.
Proof.
  intros Ht [t' ->]. rewrite alternating_app in Ht.
  apply andb_true_iff in Ht as [Hp _].
  pose proof (alternating_counts false p Hp) as H.
  destruct (pending_after false p); simpl in H; lia.
Qed.


Lemma ceil_div_lt a b p :
  (0 ≤ a)%Z → (1 ≤ b)%Z → (ceil_div a b < p ↔ a ≤ (p - 1) * b)%Z.
Proof.
  intros Ha Hb. unfold ceil_div. split.
  - intros H. destruct (decide (a ≤ (p - 1) * b)%Z) as [|Hn]; [done|].
    assert (p ≤ (a + b - 1) / b)%Z by (apply Z.div_le_lower_bound; lia). lia.
  - intros H. apply Z.div_lt_upper_bound; lia.
Qed.

Lemma chunk_line_ne_status_line chunk d : chunk_line chunk ≠ status_line d.
Proof.
  unfold chunk_line, status_line, json_dumps, encode_list, encode_dict,
    encode_container.
  destruct (map _ chunk), (map _ d); discriminate.
Qed.

(** ** The streamed text is printable ASCII *)

Lemma all_chars_app P a b :
  all_chars P (a +:+ b) = all_chars P a && all_chars P b.
Proof. induction a as [|c a IH]; simpl; [done|]. by rewrite IH, andb_assoc. Qed.

Lemma pretty_N_go_printable x s :
  all_chars printable (pretty_N_go x s) = all_chars printable s.
Proof.
  revert s. induction (N.lt_wf_0 x) as [x _ IH]; intros s.
  assert (x = 0 ∨ 0 < x)%N as [->|Hpos] by lia.
  - by rewrite pretty_N_go_0.
  - rewrite pretty_N_go_step by done. rewrite IH by (by apply N.div_lt).
    simpl. unfold pretty_N_char. by repeat case_match.
Qed.

Lemma pretty_Z_printable (n : Z) : all_chars printable (pretty n) = true.
Proof.
  assert (∀ x : N, all_chars printable (pretty x) = true) as HN.
  { intros x. unfold pretty, pretty_N. case_decide; [done|].
    by rewrite pretty_N_go_printable. }
  destruct n as [|p|p]; unfold pretty, pretty_Z; [done|apply HN|].
  rewrite all_chars_app. simpl. apply HN.
Qed.

Lemma escape_char_printable c :
  all_chars printable (if escaped true c then replace c else String c "") = true.
Proof. by destruct c as [[] [] [] [] [] [] [] []]. Qed.

Lemma encode_basestring_printable s :
  all_chars printable (encode_basestring true s) = true.
Proof.
  unfold encode_basestring. cbn [all_chars]. rewrite all_chars_app.
  assert (all_chars printable (escape_sub true s) = true) as ->; [|done].
  induction s as [|c s IH]; [done|]. cbn [escape_sub].
  by rewrite all_chars_app, escape_char_printable, IH.
Qed.

Lemma encode_item_printable kv :
  all_chars printable (encode_item true kv) = true.
Proof.
  assert (all_chars printable (encode_scalar true kv.2) = true) as Hv.
  { destruct kv.2; [done|apply pretty_Z_printable|apply encode_basestring_printable]. }
  unfold encode_item. by rewrite !all_chars_app, encode_basestring_printable, Hv.
Qed.

Lemma str_join_printable sep items :
  all_chars printable sep = true →
  Forall (λ s, all_chars printable s = true) items →
  all_chars printable (str_join sep items) = true.
Proof.
  intros Hsep. induction 1 as [|x items Hx Hitems IH]; [done|].
  destruct items as [|y items]; [done|].
  change (str_join sep (x :: y :: items))
    with (x +:+ sep +:+ str_join sep (y :: items)).
  by rewrite !all_chars_app, Hx, Hsep, IH.
Qed.

Lemma encode_container_printable opening closing level items :
  all_chars printable opening = true → all_chars printable closing = true →
  Forall (λ s, all_chars printable s = true) items →
  all_chars printable (encode_container opening closing None level items) = true.
Proof.
  intros Ho Hc Hitems. unfold encode_container.
  destruct items as [|x items]; rewrite !all_chars_app, ?Ho, ?Hc; [done|].
  by rewrite str_join_printable.
Qed.

Lemma json_dumps_printable obj :
  all_chars printable (json_dumps obj true None) = true.
Proof.
  assert (∀ level d, all_chars printable (encode_dict true None level d) = true)
    as Hdict.
  { intros level d. apply encode_container_printable; [done..|].
    apply Forall_map, Forall_true. intros kv. apply encode_item_printable. }
  destruct obj as [l|d]; simpl; [|apply Hdict].
  apply encode_container_printable; [done..|].
  apply Forall_map, Forall_true. intros d. apply Hdict.
Qed.

Lemma made_dirs_app t1 t2 : made_dirs (t1 ++ t2) = made_dirs t1 ++ made_dirs t2.
Proof. apply omap_app. Qed.

(** ** The encoding loses nothing *)

Lemma string_app_assoc a b c : (a +:+ b) +:+ c = a +:+ (b +:+ c).
Proof.
  induction a as [|x a IH]; [done|].
  change (String x ((a +:+ b) +:+ c) = String x (a +:+ (b +:+ c))).
  by rewrite IH.
Qed.

Lemma unescape_char ea c X :
  unescape ((if escaped ea c then replace c else String c "") +:+ X)
  = match unescape X with
    | Some (t, r) => Some (String c t, r)
    | None => None
    end.
Proof. destruct ea; destruct c as [[] [] [] [] [] [] [] []]; reflexivity. Qed.

Lemma unescape_escape_sub ea s r :
  unescape (escape_sub ea s +:+ String DQ r) = Some (s, r).
Proof.
  induction s as [|c s IH]; [done|]. cbn [escape_sub].
  by rewrite string_app_assoc, unescape_char, IH.
Qed.

(** A quoted string ends at its closing quote. *)
Lemma encode_basestring_inj ea s s' r r' :
  encode_basestring ea s +:+ r = encode_basestring ea s' +:+ r' →
  s = s' ∧ r = r'.
Proof.
  unfold encode_basestring. intros H.
  change (String DQ ((escape_sub ea s +:+ String DQ "") +:+ r)
          = String DQ ((escape_sub ea s' +:+ String DQ "") +:+ r')) in H.
  injection H as H. rewrite !string_app_assoc in H.
  apply (f_equal unescape) in H.
  change (String DQ "" +:+ ?x) with (String DQ x) in H.
  rewrite !unescape_escape_sub in H. by injection H.
Qed.

Lemma pretty_N_go_int_chars x s :
  all_chars int_char (pretty_N_go x s) = all_chars int_char s.
Proof.
  revert s. induction (N.lt_wf_0 x) as [x _ IH]; intros s.
  assert (x = 0 ∨ 0 < x)%N as [->|Hpos] by lia.
  - by rewrite pretty_N_go_0.
  - rewrite pretty_N_go_step by done. rewrite IH by (by apply N.div_lt).
    simpl. unfold pretty_N_char. by repeat case_match.
Qed.

Lemma pretty_N_go_length x s :
  String.length s ≤ String.length (pretty_N_go x s).
Proof.
  revert s. induction (N.lt_wf_0 x) as [x _ IH]; intros s.
  assert (x = 0 ∨ 0 < x)%N as [->|Hpos] by lia.
  - by rewrite pretty_N_go_0.
  - rewrite pretty_N_go_step by done.
    etrans; [|apply IH; by apply N.div_lt]. simpl. lia.
Qed.

Lemma pretty_Z_int_chars (n : Z) : all_chars int_char (pretty n) = true.
Proof.
  assert (∀ x : N, all_chars int_char (pretty x) = true) as HN.
  { intros x. unfold pretty, pretty_N. case_decide; [done|].
    by rewrite pretty_N_go_int_chars. }
  destruct n as [|p|p]; unfold pretty, pretty_Z; [done|apply HN|].
  rewrite all_chars_app. simpl. apply HN.
Qed.

(** A printed [int] starts with a digit or a minus sign. *)
Lemma pretty_Z_head (n : Z) r :
  ∃ c t, pretty n +:+ r = String c t ∧ int_char c = true.
Proof.
  pose proof (pretty_Z_int_chars n) as Hall.
  assert (pretty n ≠ "") as Hne.
  { destruct n as [|p|p]; unfold pretty, pretty_Z; [done| |done].
    unfold pretty, pretty_positive, pretty, pretty_N.
    rewrite decide_False by done. rewrite pretty_N_go_step by lia.
    intros E. apply (f_equal String.length) in E.
    pose proof (pretty_N_go_length (N.pos p `div` 10)
                  (String (pretty_N_char (N.pos p `mod` 10)) "")) as Hlen.
    rewrite E in Hlen. simpl in Hlen. lia. }
  destruct (pretty n) as [|c t]; [done|].
  exists c, (t +:+ r). split; [done|].
  simpl in Hall. by apply andb_true_iff in Hall as [? _].
Qed.

(** A run of characters of [P] ends where the text stops having them. *)
Lemma run_unique P a a' r r' :
  all_chars P a = true → all_chars P a' = true →
  stops P r = true → stops P r' = true →
  a +:+ r = a' +:+ r' → a = a' ∧ r = r'.
Proof.
  revert a'. induction a as [|x a IH]; intros [|y a'] Ha Ha' Hr Hr' H.
  - done.
  - change (r = String y (a' +:+ r')) in H. rewrite H in Hr. simpl in Hr, Ha'.
    apply andb_true_iff in Ha' as [Hy _]. by rewrite Hy in Hr.
  - change (String x (a +:+ r) = r') in H. rewrite <-H in Hr'.
    simpl in Hr', Ha. apply andb_true_iff in Ha as [Hx _]. by rewrite Hx in Hr'.
  - change (String x (a +:+ r) = String y (a' +:+ r')) in H. simpl in Ha, Ha'.
    injection H as -> H.
    apply andb_true_iff in Ha as [_ Ha]. apply andb_true_iff in Ha' as [_ Ha'].
    destruct (IH a' Ha Ha' Hr Hr' H) as [-> ->]. done.
Qed.

Lemma encode_scalar_inj ea v v' r r' :
  stops int_char r = true → stops int_char r' = true →
  encode_scalar ea v +:+ r = encode_scalar ea v' +:+ r' →
  v = v' ∧ r = r'.
Proof.
  intros Hr Hr' H. destruct v as [|n|s], v' as [|n'|s']; simpl in H.
  - by injection H.
  - destruct (pretty_Z_head n' r') as (c & t & E & Hc). rewrite E in H.
    injection H as <- _. done.
  - discriminate.
  - destruct (pretty_Z_head n r) as (c & t & E & Hc). rewrite E in H.
    injection H as -> _. done.
  - destruct (run_unique int_char _ _ _ _ (pretty_Z_int_chars n)
                (pretty_Z_int_chars n') Hr Hr' H) as [E ->].
    by apply (inj pretty) in E as ->.
  - destruct (pretty_Z_head n r) as (c & t & E & Hc). rewrite E in H.
    unfold encode_basestring in H. injection H as -> _. done.
  - discriminate.
  - destruct (pretty_Z_head n' r') as (c & t & E & Hc). rewrite E in H.
    unfold encode_basestring in H. injection H as <- _. done.
  - by destruct (encode_basestring_inj _ _ _ _ _ H) as [-> ->].
Qed.

Lemma encode_item_inj ea kv kv' r r' :
  stops int_char r = true → stops int_char r' = true →
  encode_item ea kv +:+ r = encode_item ea kv' +:+ r' →
  kv = kv' ∧ r = r'.
Proof.
  intros Hr Hr' H. destruct kv as [k v], kv' as [k' v'].
  unfold encode_item, key_separator in H. cbn [fst snd] in H.
  rewrite !string_app_assoc in H.
  apply encode_basestring_inj in H as [-> H]. apply (inj (String.app ": ")) in H.
  by destruct (encode_scalar_inj _ _ _ _ _ Hr Hr' H) as [-> ->].
Qed.

Section Containers.
Context {A : Type} (enc : A → string) (good : string → Prop).
Context (o c : ascii) (indent : option nat) (level : nat).
Hypothesis enc_inj : ∀ a a' r r',
  good r → good r' → enc a +:+ r = enc a' +:+ r' → a = a' ∧ r = r'.
Hypothesis enc_head : ∀ a r, ∃ h t, enc a +:+ r = String h t ∧ h ≠ c.
Hypothesis good_comma : ∀ t, good (String "," t).
Hypothesis good_close : ∀ t, good (String c t).
Hypothesis good_lf : ∀ t, good (String LF t).
Hypothesis c_not_comma : c ≠ ","%char.
Hypothesis c_not_lf : c ≠ LF.

Local Abbreviation sep := (items_sep indent level).
Local Abbreviation closing := (items_closing c indent level).

Lemma str_join_items_tail s x l Y :
  str_join s (x :: l) +:+ Y = x +:+ items_tail s Y l.
Proof.
  revert x. induction l as [|y l IH]; intros x; [done|].
  change (str_join s (x :: y :: l)) with (x +:+ s +:+ str_join s (y :: l)).
  by rewrite !string_app_assoc, IH.
Qed.

Lemma items_tail_app s cl l r :
  items_tail s (cl +:+ r) l = items_tail s cl l +:+ r.
Proof.
  induction l as [|y l IH]; [done|]. cbn [items_tail].
  by rewrite IH, !string_app_assoc.
Qed.

Lemma container_cons x l r :
  encode_container (String o "") (String c "") indent level (x :: l) +:+ r
  = String o (newline_indent indent (S level)
              +:+ x +:+ items_tail sep closing l +:+ r).
Proof.
  unfold encode_container. rewrite !string_app_assoc, str_join_items_tail.
  rewrite <-items_tail_app. unfold items_closing, items_sep.
  by rewrite string_app_assoc.
Qed.

Lemma sep_head : ∃ t, sep = String "," t.
Proof. unfold items_sep. destruct indent; simpl; eauto. Qed.

Lemma closing_head : ∃ h t, closing = String h t ∧ (h = c ∨ h = LF).
Proof. unfold items_closing. destruct indent; simpl; eauto 6. Qed.

Lemma items_tail_good l r : good (items_tail sep closing l +:+ r).
Proof.
  destruct l as [|x l]; cbn [items_tail].
  - destruct closing_head as (h & t & E & Hh). rewrite E.
    change (String h t +:+ r) with (String h (t +:+ r)).
    destruct Hh as [->| ->]; auto.
  - destruct sep_head as (t & E). rewrite string_app_assoc, E.
    apply good_comma.
Qed.

Lemma items_tail_inj l l' r r' :
  items_tail sep closing (map enc l) +:+ r
  = items_tail sep closing (map enc l') +:+ r' →
  l = l' ∧ r = r'.
Proof.
  revert l'. induction l as [|a l IH]; intros [|a' l'] H; simpl in H.
  - by apply (inj (String.app closing)) in H.
  - exfalso. destruct closing_head as (h & t & E & Hh).
    destruct sep_head as (t' & E'). rewrite E, E' in H. simpl in H.
    injection H as -> _. by destruct Hh.
  - exfalso. destruct closing_head as (h & t & E & Hh).
    destruct sep_head as (t' & E'). rewrite E, E' in H. simpl in H.
    injection H as <- _. by destruct Hh.
  - rewrite !string_app_assoc in H. apply (inj (String.app sep)) in H.
    apply enc_inj in H as [-> H]; [|apply items_tail_good..].
    by destruct (IH _ H) as [-> ->].
Qed.

(** A container ends at its closing bracket, and its items can be read
    off one by one. *)
Lemma container_inj l l' r r' :
  encode_container (String o "") (String c "") indent level (map enc l) +:+ r
  = encode_container (String o "") (String c "") indent level (map enc l') +:+ r' →
  l = l' ∧ r = r'.
Proof.
  destruct l as [|a l], l' as [|a' l']; cbn [map]; rewrite ?container_cons;
    change (encode_container (String o "") (String c "") indent level [] +:+ ?x)
      with (String o (String c x)).
  - intros H. by injection H.
  - intros H. injection H as H. exfalso.
    set (T := items_tail sep closing (map enc l') +:+ r') in H.
    destruct (enc_head a' T) as (h & t & E & Hh).
    destruct indent as [n|]; cbn [newline_indent] in H.
    + change (String LF ?x +:+ ?y) with (String LF (x +:+ y)) in H.
      by injection H.
    + change ("" +:+ ?y) with y in H. rewrite E in H. by injection H as <-.
  - intros H. injection H as H. exfalso.
    set (T := items_tail sep closing (map enc l) +:+ r) in H.
    destruct (enc_head a T) as (h & t & E & Hh).
    destruct indent as [n|]; cbn [newline_indent] in H.
    + change (String LF ?x +:+ ?y) with (String LF (x +:+ y)) in H.
      by injection H.
    + change ("" +:+ ?y) with y in H. rewrite E in H. by injection H as ->.
  - intros H. injection H as H.
    apply (inj (String.app (newline_indent indent (S level)))) in H.
    apply enc_inj in H as [-> H]; [|apply items_tail_good..].
    by destruct (items_tail_inj _ _ _ _ H) as [-> ->].
Qed.
End Containers.

Lemma encode_dict_inj ea indent level d d' r r' :
  encode_dict ea indent level d +:+ r = encode_dict ea indent level d' +:+ r' →
  d = d' ∧ r = r'.
Proof.
  apply (container_inj (encode_item ea) (λ s, stops int_char s = true)
           "{" "}" indent level); try done.
  - intros a a' s s'. apply encode_item_inj.
  - intros [k v] s. unfold encode_item, encode_basestring. simpl. eauto.
Qed.

Lemma encode_list_inj ea indent level l l' r r' :
  encode_list ea indent level l +:+ r = encode_list ea indent level l' +:+ r' →
  l = l' ∧ r = r'.
Proof.
  apply (container_inj (encode_dict ea indent (S level)) (λ _, True)
           "[" "]" indent level); try done.
  - intros a a' s s' _ _. apply encode_dict_inj.
  - intros d s. unfold encode_dict, encode_container.
    destruct (map _ d); simpl; eauto.
Qed.


(** ** The monad *)

Lemma bind_ok {A B} (m : M A) (k : A → M B) fs a :
  value (m fs) = inr a →
  bind m k fs
  = Ended (value (k a (disk (m fs)))) (disk (k a (disk (m fs))))
          (trace (m fs) ++ trace (k a (disk (m fs)))).
Proof. intros H. unfold bind. by rewrite H. Qed.

Lemma bind_raise {A B} (m : M A) (k : A → M B) fs e :
  value (m fs) = inl e →
  bind m k fs = Ended (inl e) (disk (m fs)) (trace (m fs)).
Proof. intros H. unfold bind. by rewrite H. Qed.

(** ** Serialising rows *)

Lemma to_row_plain r : to_row (plain_row r) = Some r.
Proof. induction r as [|[k v] r IH]; simpl; [done|]. by rewrite IH. Qed.

Lemma to_rows_plain rows : to_rows (plain rows) = Some rows.
Proof.
  induction rows as [|r rows IH]; simpl; [done|].
  by rewrite to_row_plain, IH.
Qed.

Lemma to_row_Some d r : to_row d = Some r → d = plain_row r.
Proof.
  revert r. induction d as [|[k c] d IH]; intros r; simpl.
  - by intros [= <-].
  - destruct c as [v|b]; simpl; [|done].
    destruct (to_row d) as [r'|]; [|done]. intros [= <-].
    simpl. by rewrite <-(IH r').
Qed.

Lemma to_rows_Some l rows : to_rows l = Some rows → l = plain rows.
Proof.
  revert rows. induction l as [|d l IH]; intros rows; simpl.
  - by intros [= <-].
  - destruct (to_row d) as [r|] eqn:E; [|done].
    destruct (to_rows l) as [rows'|]; [|done]. intros [= <-].
    simpl. by rewrite <-(to_row_Some d r), <-(IH rows').
Qed.

Lemma length_plain rows : length (plain rows) = length rows.
Proof. apply length_map. Qed.


Lemma plain_inj a b : plain a = plain b → a = b.
Proof.
  intros H. apply (f_equal to_rows) in H. rewrite !to_rows_plain in H.
  by injection H.
Qed.

(** ** Paths *)

Lemma string_app_id a b : a +:+ b = a → b = "".
Proof.
  intros H. apply (f_equal String.length) in H.
  rewrite string_app_length in H. destruct b; [done|]. simpl in H. lia.
Qed.

(** A part file is not its folder. *)
Lemma part_path_ne_folder folder n : part_path folder n ≠ folder.
Proof.
  unfold part_path, os_path_join.
  change (starts_with_slash ("part_" +:+ pretty n +:+ ".json")) with false.
  cbv iota. destruct (bool_decide (folder = "") || ends_with_slash folder).
  - intros H. by apply string_app_id in H.
  - intros H. by apply string_app_id in H.
Qed.

Lemma writable_chunks_paginated fs :
  files fs !! "chunks_paginated" = None →
  "chunks_paginated/part_1.json" ∉ dirs fs →
  writable fs "chunks_paginated" 1 = true.
Proof.
  intros H1 H2. unfold writable.
  rewrite !bool_decide_eq_true_2; done.
Qed.

(** ** [generate_file] *)

Lemma generate_file_ok cwd chunk n folder fs :
  writable fs folder n = true →
  generate_file cwd chunk n folder fs
  = Outcome tt
      (Filesystem (if creates fs folder then {[folder]} ∪ dirs fs else dirs fs)
                  (<[part_path folder n := file_text chunk]> (files fs)))
      ((if creates fs folder then [Makedirs folder] else [])
       ++ [WriteFile (part_path folder n) (file_text chunk);
           Stdout ("Processing and saving chunk number " +:+ pretty n
                   +:+ " into directory: "
                   +:+ os_path_abspath cwd (part_path folder n))]).
Proof.
  unfold writable. intros H.
  apply andb_true_iff in H as [H Hpp]. apply andb_true_iff in H as [Hne Hf].
  apply bool_decide_eq_true in Hne, Hf, Hpp.
  pose proof (part_path_ne_folder folder n) as Hpf.
  unfold creates, generate_file, bind, os_path_exists, Outcome. simpl.
  rewrite (bool_decide_eq_true_2 (folder ≠ "")) by done. simpl.
  destruct (path_exists fs folder) eqn:E; simpl.
  - unfold write_file, part_path. simpl.
    rewrite bool_decide_eq_false_2 by (rewrite Hf; by intros [? ?]).
    unfold path_exists in E. apply andb_true_iff in E as [_ E].
    apply orb_true_iff in E as [E|E]; apply bool_decide_eq_true in E;
      [|rewrite Hf in E; by destruct E].
    rewrite bool_decide_eq_false_2 by (intros H; by apply H).
    fold (part_path folder n). rewrite bool_decide_eq_false_2 by done.
    reflexivity.
  - unfold os_makedirs. rewrite bool_decide_eq_false_2 by done. rewrite E. simpl.
    unfold write_file, part_path. simpl.
    rewrite bool_decide_eq_false_2 by (rewrite Hf; by intros [? ?]).
    rewrite bool_decide_eq_false_2 by (intros H; apply H; set_solver).
    fold (part_path folder n).
    rewrite bool_decide_eq_false_2 by set_solver.
    reflexivity.
Qed.

Lemma generate_file_raises cwd chunk n folder fs :
  writable fs folder n = false →
  ∃ e, generate_file cwd chunk n folder fs
       = Ended (inl e)
           (Filesystem (if creates fs folder then {[folder]} ∪ dirs fs else dirs fs)
                       (files fs))
           (if creates fs folder then [Makedirs folder] else []).
Proof.
  intros H. destruct fs as [ds fl].
  unfold creates, generate_file, bind, os_path_exists, Outcome. simpl.
  destruct (decide (folder = "")) as [->|Hne].
  { exists FileNotFoundError. reflexivity. }
  rewrite (bool_decide_eq_true_2 (folder ≠ "")) by done. simpl.
  unfold writable in H. simpl in H.
  rewrite (bool_decide_eq_true_2 (folder ≠ "")) in H by done. simpl in H.
  destruct (path_exists (Filesystem ds fl) folder) eqn:E; simpl.
  - unfold write_file. simpl. fold (part_path folder n).
    destruct (fl !! folder) as [x|] eqn:Ef.
    + exists NotADirectoryError.
      by rewrite bool_decide_eq_true_2 by eauto.
    + rewrite bool_decide_eq_false_2 by (by intros [? ?]).
      rewrite (bool_decide_eq_true_2 (None = None)) in H by done. simpl in H.
      apply bool_decide_eq_false in H.
      unfold path_exists in E. simpl in E. rewrite Ef in E.
      apply andb_true_iff in E as [_ E].
      apply orb_true_iff in E as [E|E]; apply bool_decide_eq_true in E;
        [|by destruct E].
      rewrite bool_decide_eq_false_2 by (intros Hn; by apply Hn).
      exists IsADirectoryError. rewrite bool_decide_eq_true_2; [done|].
      by destruct (decide (part_path folder n ∈ ds)).
  - unfold os_makedirs. rewrite bool_decide_eq_false_2 by done. rewrite E. simpl.
    unfold write_file. simpl. fold (part_path folder n).
    assert (fl !! folder = None) as Ef.
    { unfold path_exists in E. simpl in E.
      rewrite (bool_decide_eq_true_2 (folder ≠ "")) in E by done. simpl in E.
      apply orb_false_iff in E as [_ E]. apply bool_decide_eq_false in E.
      destruct (fl !! folder); [|done]. destruct E. eauto. }
    rewrite Ef in *. rewrite bool_decide_eq_false_2 by (by intros [? ?]).
    rewrite (bool_decide_eq_true_2 (None = None)) in H by done. simpl in H.
    apply bool_decide_eq_false in H.
    rewrite bool_decide_eq_false_2 by (intros Hn; apply Hn; set_solver).
    exists IsADirectoryError. rewrite bool_decide_eq_true_2; [done|].
    destruct (decide (part_path folder n ∈ ds)); [set_solver|done].
Qed.

Lemma generate_file_writes cwd chunk n folder fs :
  writable fs folder n = true →
  generate_file cwd chunk n folder fs
  = Outcome tt (after_write fs folder n (file_text chunk))
      (makedirs_events fs folder ++ write_events cwd folder n (file_text chunk)).
Proof. apply generate_file_ok. Qed.

Lemma generate_file_fails cwd chunk n folder fs :
  writable fs folder n = false →
  ∃ e, generate_file cwd chunk n folder fs
       = Ended (inl e) (after_failure fs folder) (makedirs_events fs folder).
Proof. apply generate_file_raises. Qed.

#[local] Opaque generate_file.

(** What decides a write is not changed by [generate_file]. *)
Lemma writable_after_write fs folder n text m :
  writable (after_write fs folder n text) folder m = writable fs folder m.
Proof.
  unfold writable, after_write. simpl.
  rewrite lookup_insert_ne by apply part_path_ne_folder.
  do 2 f_equal. destruct (creates fs folder); [|done].
  apply bool_decide_ext. pose proof (part_path_ne_folder folder m) as Hm.
  rewrite elem_of_union, elem_of_singleton. tauto.
Qed.

Lemma writable_after_failure fs folder m :
  writable (after_failure fs folder) folder m = writable fs folder m.
Proof.
  unfold writable, after_failure. simpl.
  do 2 f_equal. destruct (creates fs folder); [|done].
  apply bool_decide_ext. pose proof (part_path_ne_folder folder m) as Hm.
  rewrite elem_of_union, elem_of_singleton. tauto.
Qed.

Lemma path_exists_made fs folder fl :
  folder ≠ "" →
  (is_Some (files fs !! folder) → is_Some (fl !! folder)) →
  path_exists
    (Filesystem (if creates fs folder then {[folder]} ∪ dirs fs else dirs fs) fl)
    folder = true.
Proof.
  intros Hne Hfl. unfold creates.
  rewrite (bool_decide_eq_true_2 (folder ≠ "")) by done. cbn [andb].
  destruct (path_exists fs folder) eqn:E; cbn [negb];
    unfold path_exists in *; cbn [dirs files] in *;
    rewrite (bool_decide_eq_true_2 (folder ≠ "")) in * by done;
    cbn [andb] in *; apply orb_true_iff.
  - apply orb_true_iff in E as [E|E]; [by left|right].
    apply bool_decide_eq_true in E. apply bool_decide_eq_true. auto.
  - left. apply bool_decide_eq_true. apply elem_of_union_l.
    by apply elem_of_singleton.
Qed.

Lemma creates_after_write fs folder n text :
  creates (after_write fs folder n text) folder = false.
Proof.
  unfold creates at 1. destruct (decide (folder = "")) as [->|Hne]; [done|].
  unfold after_write. rewrite path_exists_made; [by rewrite andb_false_r|done|].
  by rewrite lookup_insert_ne by apply part_path_ne_folder.
Qed.

Lemma creates_after_failure fs folder :
  creates (after_failure fs folder) folder = false.
Proof.
  unfold creates at 1. destruct (decide (folder = "")) as [->|Hne]; [done|].
  unfold after_failure. by rewrite path_exists_made, andb_false_r.
Qed.

(** ** One turn of the loop of [get_large_data_chunks] *)

Lemma chunk_loop_keep cwd cs r rest chunk n fs :
  ¬ (Z.of_nat (length (chunk ++ [r])) >= cs)%Z →
  chunk_loop cwd cs (r :: rest) chunk n fs
  = chunk_loop cwd cs rest (chunk ++ [r]) n fs.
Proof. intros H. cbn [chunk_loop]. by rewrite decide_False. Qed.

Lemma chunk_loop_type_error cwd cs r rest chunk n fs :
  (Z.of_nat (length (chunk ++ [r])) >= cs)%Z →
  to_rows (chunk ++ [r]) = None →
  chunk_loop cwd cs (r :: rest) chunk n fs = Ended (inl TypeError) fs [].
Proof.
  intros H Hp. cbn [chunk_loop]. rewrite decide_True by done.
  unfold bind at 1, serialise. by rewrite Hp.
Qed.

Lemma chunk_loop_blocked cwd cs r rest chunk n fs p :
  (Z.of_nat (length (chunk ++ [r])) >= cs)%Z →
  to_rows (chunk ++ [r]) = Some p →
  writable fs "chunks" n = false →
  ∃ e, chunk_loop cwd cs (r :: rest) chunk n fs
       = Ended (inl e) (after_failure fs "chunks")
           (Yield (chunk_line p) :: Stdout ("Sent chunk " +:+ pretty n)
            :: makedirs_events fs "chunks").
Proof.
  intros H Hp Hw. cbn [chunk_loop]. rewrite decide_True by done.
  destruct (generate_file_fails cwd p n "chunks" fs Hw) as [e He].
  exists e. unfold serialise. rewrite Hp.
  unfold bind, ret, yield_, print, emit, Outcome. cbn [value disk trace].
  rewrite He. reflexivity.
Qed.

Lemma chunk_loop_flush cwd cs r rest chunk n fs p :
  (Z.of_nat (length (chunk ++ [r])) >= cs)%Z →
  to_rows (chunk ++ [r]) = Some p →
  writable fs "chunks" n = true →
  chunk_loop cwd cs (r :: rest) chunk n fs
  = Ended
      (value (chunk_loop cwd cs rest [] (n + 1)
                (after_write fs "chunks" n (file_text p))))
      (disk (chunk_loop cwd cs rest [] (n + 1)
               (after_write fs "chunks" n (file_text p))))
      (Yield (chunk_line p) :: Stdout ("Sent chunk " +:+ pretty n)
       :: makedirs_events fs "chunks"
          ++ write_events cwd "chunks" n (file_text p)
          ++ trace (chunk_loop cwd cs rest [] (n + 1)
                      (after_write fs "chunks" n (file_text p)))).
Proof.
  intros H Hp Hw. cbn [chunk_loop]. rewrite decide_True by done.
  unfold serialise. rewrite Hp.
  unfold bind, ret, yield_, print, emit, Outcome. cbn [value disk trace].
  rewrite (generate_file_writes cwd p n "chunks" fs Hw).
  unfold Outcome. cbn [value disk trace].
  destruct (value (chunk_loop _ _ _ _ _ _)); cbn [app];
    by rewrite <-(assoc_L (++)).
Qed.

(** ** The whole loop *)

Lemma streamed_ext ok ok' n chunks :
  (∀ m, ok m = ok' m) → streamed ok n chunks = streamed ok' n chunks.
Proof.
  intros H. revert n. induction chunks as [|c l IH]; intros n; simpl; [done|].
  destruct (to_rows c); [|done]. by rewrite H, IH.
Qed.

Lemma persisted_ext ok ok' n chunks :
  (∀ m, ok m = ok' m) → persisted ok n chunks = persisted ok' n chunks.
Proof.
  intros H. revert n. induction chunks as [|c l IH]; intros n; simpl; [done|].
  destruct (to_rows c); [|done]. by rewrite H, IH.
Qed.

Lemma completes_ext ok ok' n chunks :
  (∀ m, ok m = ok' m) → completes ok n chunks = completes ok' n chunks.
Proof.
  intros H. revert n. induction chunks as [|c l IH]; intros n; simpl; [done|].
  destruct (to_rows c); [|done]. by rewrite H, IH.
Qed.

Lemma yielded_makedirs_events fs folder : yielded (makedirs_events fs folder) = [].
Proof. unfold makedirs_events. by destruct (creates fs folder). Qed.

Lemma written_makedirs_events fs folder : written (makedirs_events fs folder) = [].
Proof. unfold makedirs_events. by destruct (creates fs folder). Qed.

Lemma made_dirs_makedirs_events fs folder :
  made_dirs (makedirs_events fs folder) = if creates fs folder then [folder] else [].
Proof. unfold makedirs_events. by destruct (creates fs folder). Qed.

Lemma yielded_write_events cwd folder n text :
  yielded (write_events cwd folder n text) = [].
Proof. reflexivity. Qed.

Lemma written_write_events cwd folder n text :
  written (write_events cwd folder n text) = [(part_path folder n, text)].
Proof. reflexivity. Qed.

Lemma made_dirs_write_events cwd folder n text :
  made_dirs (write_events cwd folder n text) = [].
Proof. reflexivity. Qed.

(** The case analysis of one turn: the buffer is kept, or the chunk does
    not serialise, or its file cannot be written, or it is flushed. *)
Ltac loop_turn cwd cs r rest chunk n fs :=
  cbn [split_chunks]; cbv zeta;
  destruct (decide (Z.of_nat (length (chunk ++ [r])) >= cs)%Z) as [Hge|Hlt];
  [ cbn [fst snd streamed persisted completes reaches];
    destruct (to_rows (chunk ++ [r])) as [p|] eqn:Hp;
    [ destruct (writable fs "chunks" n) eqn:Hw;
      [ rewrite (chunk_loop_flush cwd cs r rest chunk n fs p Hge Hp Hw)
      | destruct (chunk_loop_blocked cwd cs r rest chunk n fs p Hge Hp Hw)
          as [e ->] ]
    | rewrite (chunk_loop_type_error cwd cs r rest chunk n fs Hge Hp) ]
  | rewrite (chunk_loop_keep cwd cs r rest chunk n fs Hlt) ].

Lemma chunk_loop_yielded cwd cs rows chunk n fs :
  yielded (trace (chunk_loop cwd cs rows chunk n fs))
  = map chunk_line
      (streamed (writable fs "chunks") n (split_chunks cs rows chunk).1).
Proof.
  revert chunk n fs. induction rows as [|r rest IH]; intros chunk n fs;
    [done|]. loop_turn cwd cs r rest chunk n fs; cbn [trace].
  - change (yielded (Yield ?l :: Stdout ?s :: ?t)) with (l :: yielded t).
    rewrite !yielded_app, yielded_makedirs_events, yielded_write_events, IH.
    cbn [map app]. do 2 f_equal. apply streamed_ext. intros m. apply writable_after_write.
  - change (yielded (Yield ?l :: Stdout ?s :: ?t)) with (l :: yielded t).
    by rewrite yielded_makedirs_events.
  - done.
  - apply IH.
Qed.

Lemma chunk_loop_written cwd cs rows chunk n fs :
  written (trace (chunk_loop cwd cs rows chunk n fs))
  = map (λ p, (part_path "chunks" p.1, file_text p.2))
      (persisted (writable fs "chunks") n (split_chunks cs rows chunk).1).
Proof.
  revert chunk n fs. induction rows as [|r rest IH]; intros chunk n fs;
    [done|]. loop_turn cwd cs r rest chunk n fs; cbn [trace].
  - change (written (Yield ?l :: Stdout ?s :: ?t)) with (written t).
    rewrite !written_app, written_makedirs_events, written_write_events, IH.
    cbn [map app fst snd]. do 2 f_equal. apply persisted_ext. intros m. apply writable_after_write.
  - change (written (Yield ?l :: Stdout ?s :: ?t)) with (written t).
    by rewrite written_makedirs_events.
  - done.
  - apply IH.
Qed.

Lemma chunk_loop_files cwd cs rows chunk n fs :
  files (disk (chunk_loop cwd cs rows chunk n fs))
  = apply_writes (written (trace (chunk_loop cwd cs rows chunk n fs))) (files fs).
Proof.
  revert chunk n fs. induction rows as [|r rest IH]; intros chunk n fs;
    [done|]. loop_turn cwd cs r rest chunk n fs; cbn [trace disk].
  - change (written (Yield ?l :: Stdout ?s :: ?t)) with (written t).
    rewrite !written_app, written_makedirs_events, written_write_events, IH.
    done.
  - change (written (Yield ?l :: Stdout ?s :: ?t)) with (written t).
    by rewrite written_makedirs_events.
  - done.
  - apply IH.
Qed.

Lemma chunk_loop_writable cwd cs rows chunk n fs m :
  writable (disk (chunk_loop cwd cs rows chunk n fs)) "chunks" m
  = writable fs "chunks" m.
Proof.
  revert chunk n fs. induction rows as [|r rest IH]; intros chunk n fs;
    [done|]. loop_turn cwd cs r rest chunk n fs; cbn [disk].
  - by rewrite IH, writable_after_write.
  - apply writable_after_failure.
  - done.
  - apply IH.
Qed.

Lemma chunk_loop_made_dirs cwd cs rows chunk n fs :
  made_dirs (trace (chunk_loop cwd cs rows chunk n fs))
  = if reaches (split_chunks cs rows chunk).1 && creates fs "chunks"
    then ["chunks"] else [].
Proof.
  revert chunk n fs. induction rows as [|r rest IH]; intros chunk n fs;
    [done|]. loop_turn cwd cs r rest chunk n fs; cbn [trace].
  - change (made_dirs (Yield ?l :: Stdout ?s :: ?t)) with (made_dirs t).
    rewrite !made_dirs_app, made_dirs_makedirs_events, made_dirs_write_events, IH.
    rewrite creates_after_write, andb_false_r.
    rewrite bool_decide_eq_true_2 by eauto. by destruct (creates fs "chunks").
  - change (made_dirs (Yield ?l :: Stdout ?s :: ?t)) with (made_dirs t).
    rewrite made_dirs_makedirs_events.
    by rewrite bool_decide_eq_true_2 by eauto.
  - by rewrite bool_decide_eq_false_2 by (by intros [? ?]).
  - apply IH.
Qed.

Lemma chunk_loop_dirs cwd cs rows chunk n fs :
  dirs (disk (chunk_loop cwd cs rows chunk n fs))
  = if reaches (split_chunks cs rows chunk).1 && creates fs "chunks"
    then {["chunks"]} ∪ dirs fs else dirs fs.
Proof.
  revert chunk n fs. induction rows as [|r rest IH]; intros chunk n fs;
    [done|]. loop_turn cwd cs r rest chunk n fs; cbn [disk].
  - rewrite IH, creates_after_write, andb_false_r.
    by rewrite bool_decide_eq_true_2 by eauto.
  - by rewrite bool_decide_eq_true_2 by eauto.
  - by rewrite bool_decide_eq_false_2 by (by intros [? ?]).
  - apply IH.
Qed.

Lemma chunk_loop_value cwd cs rows chunk n fs :
  if completes (writable fs "chunks") n (split_chunks cs rows chunk).1
  then value (chunk_loop cwd cs rows chunk n fs)
       = inr ((split_chunks cs rows chunk).2,
              (n + Z.of_nat (length (split_chunks cs rows chunk).1))%Z)
  else ∃ e, value (chunk_loop cwd cs rows chunk n fs) = inl e.
Proof.
  revert chunk n fs. induction rows as [|r rest IH]; intros chunk n fs.
  { simpl. do 2 f_equal. lia. }
  loop_turn cwd cs r rest chunk n fs; cbn [value andb].
  - specialize (IH [] (n + 1)%Z (after_write fs "chunks" n (file_text p))).
    rewrite (completes_ext _ (writable fs "chunks")) in IH
      by (intros m; apply writable_after_write).
    destruct (completes _ _ _); [|done]. rewrite IH. cbn [length]. do 2 f_equal. lia.
  - eauto.
  - eauto.
  - apply IH.
Qed.

Lemma chunk_loop_alternating cwd cs rows chunk n fs :
  alternating false (trace (chunk_loop cwd cs rows chunk n fs)) = true
  ∧ (completes (writable fs "chunks") n (split_chunks cs rows chunk).1 = true →
     pending_after false (trace (chunk_loop cwd cs rows chunk n fs)) = false).
Proof.
  revert chunk n fs. induction rows as [|r rest IH]; intros chunk n fs;
    [done|]. loop_turn cwd cs r rest chunk n fs; cbn [trace andb].
  - destruct (IH [] (n + 1)%Z (after_write fs "chunks" n (file_text p)))
      as [IH1 IH2].
    rewrite (completes_ext _ (writable fs "chunks")) in IH2
      by (intros m; apply writable_after_write).
    cbn [alternating pending_after negb andb].
    rewrite !alternating_app, !pending_after_app.
    unfold makedirs_events. destruct (creates fs "chunks"); by cbn.
  - split; [|done]. cbn [alternating negb andb].
    unfold makedirs_events. by destruct (creates fs "chunks").
  - done.
  - apply IH.
Qed.

(** ** [get_large_data_chunks] *)

Lemma bind_execute {B} large_table q (k : result → M B) fs :
  accepted q = true →
  bind (execute large_table q) k fs
  = Ended (value (k (answer large_table q) fs))
          (disk (k (answer large_table q) fs))
          (Execute q :: trace (k (answer large_table q) fs)).
Proof.
  intros H. unfold bind, execute, run_statement. rewrite H. reflexivity.
Qed.

Lemma bind_execute_rejected {B} large_table q (k : result → M B) fs :
  accepted q = false →
  bind (execute large_table q) k fs = Ended (inl IntegrityError) fs [Execute q].
Proof.
  intros H. unfold bind, execute, run_statement. rewrite H. reflexivity.
Qed.

Lemma full_dump_run large_table cwd chunk_size fs :
  ∃ v, get_large_data_chunks large_table cwd chunk_size fs
       = Ended v
           (disk (chunk_loop cwd chunk_size (full_dump_rows large_table) [] 1 fs))
           (Execute (SelectLimit 10000)
            :: trace (chunk_loop cwd chunk_size (full_dump_rows large_table) [] 1 fs)
               ++ closing_events
                    (value (chunk_loop cwd chunk_size
                              (full_dump_rows large_table) [] 1 fs))).
Proof.
  unfold get_large_data_chunks. rewrite bind_execute by done.
  fold (full_dump_rows large_table).
  set (L := chunk_loop cwd chunk_size _ [] 1 fs).
  destruct (value L) as [e|st] eqn:E.
  - rewrite (bind_raise (chunk_loop cwd chunk_size (full_dump_rows large_table) [] 1)
               _ fs e E). fold L. cbn [value disk trace closing_events].
    eexists. by rewrite app_nil_r.
  - rewrite (bind_ok (chunk_loop cwd chunk_size (full_dump_rows large_table) [] 1)
               _ fs st E). fold L. cbn [value disk trace closing_events].
    unfold bind, serialise. destruct (truthy st.1); cbn [value disk trace].
    + destruct (to_rows st.1); cbn; eexists; by rewrite ?app_nil_r.
    + eexists. done.
Qed.

Lemma full_dump_trace large_table cwd chunk_size fs :
  trace (get_large_data_chunks large_table cwd chunk_size fs)
  = Execute (SelectLimit 10000)
    :: trace (chunk_loop cwd chunk_size (full_dump_rows large_table) [] 1 fs)
       ++ closing_events
            (value (chunk_loop cwd chunk_size (full_dump_rows large_table) [] 1 fs)).
Proof. by destruct (full_dump_run large_table cwd chunk_size fs) as [v ->]. Qed.

Lemma full_dump_disk large_table cwd chunk_size fs :
  disk (get_large_data_chunks large_table cwd chunk_size fs)
  = disk (chunk_loop cwd chunk_size (full_dump_rows large_table) [] 1 fs).
Proof. by destruct (full_dump_run large_table cwd chunk_size fs) as [v ->]. Qed.

Lemma yielded_closing_events cs rows ok :
  let p := split_chunks cs rows [] in
  (if completes ok 1 p.1
   then ∀ v, v = inr (p.2, (1 + Z.of_nat (length p.1))%Z) →
        yielded (closing_events v) = map chunk_line (last_streamed true p.2)
   else ∀ e, yielded (closing_events (inl e)) = map chunk_line (last_streamed false p.2)).
Proof.
  intros p. destruct (completes ok 1 p.1); [|done].
  intros v ->. unfold closing_events, last_streamed. cbn [fst andb].
  destruct (truthy p.2); [|done]. by destruct (to_rows p.2).
Qed.

Lemma full_dump_yielded large_table cwd chunk_size fs :
  yielded (trace (get_large_data_chunks large_table cwd chunk_size fs))
  = map chunk_line (full_dump_streamed fs chunk_size (full_dump_rows large_table)).
Proof.
  rewrite full_dump_trace.
  change (yielded (Execute ?q :: ?t)) with (yielded t).
  rewrite yielded_app, chunk_loop_yielded. unfold full_dump_streamed.
  rewrite map_app. f_equal.
  pose proof (chunk_loop_value cwd chunk_size (full_dump_rows large_table) [] 1 fs) as Hv.
  pose proof (yielded_closing_events chunk_size (full_dump_rows large_table)
                (writable fs "chunks")) as Hc. cbv zeta in Hc.
  destruct (completes _ _ _).
  - by apply Hc.
  - destruct Hv as [e ->]. apply Hc.
Qed.

Lemma written_closing_events v : written (closing_events v) = [].
Proof.
  destruct v as [e|st]; [done|]. unfold closing_events.
  destruct (truthy st.1); [|done]. by destruct (to_rows st.1).
Qed.

Lemma made_dirs_closing_events v : made_dirs (closing_events v) = [].
Proof.
  destruct v as [e|st]; [done|]. unfold closing_events.
  destruct (truthy st.1); [|done]. by destruct (to_rows st.1).
Qed.

Lemma full_dump_written large_table cwd chunk_size fs :
  written (trace (get_large_data_chunks large_table cwd chunk_size fs))
  = map (λ p, (part_path "chunks" p.1, file_text p.2))
      (persisted (writable fs "chunks") 1
         (split_chunks chunk_size (full_dump_rows large_table) []).1).
Proof.
  rewrite full_dump_trace.
  change (written (Execute ?q :: ?t)) with (written t).
  by rewrite written_app, written_closing_events, app_nil_r, chunk_loop_written.
Qed.

Lemma full_dump_files large_table cwd chunk_size fs :
  files (disk (get_large_data_chunks large_table cwd chunk_size fs))
  = apply_writes
      (written (trace (get_large_data_chunks large_table cwd chunk_size fs)))
      (files fs).
Proof.
  rewrite full_dump_disk, chunk_loop_files.
  by rewrite full_dump_written, chunk_loop_written.
Qed.

Lemma full_dump_made_dirs large_table cwd chunk_size fs :
  made_dirs (trace (get_large_data_chunks large_table cwd chunk_size fs))
  = if reaches (split_chunks chunk_size (full_dump_rows large_table) []).1
       && creates fs "chunks"
    then ["chunks"] else [].
Proof.
  rewrite full_dump_trace.
  change (made_dirs (Execute ?q :: ?t)) with (made_dirs t).
  by rewrite made_dirs_app, made_dirs_closing_events, app_nil_r,
    chunk_loop_made_dirs.
Qed.

Lemma full_dump_dirs large_table cwd chunk_size fs :
  dirs (disk (get_large_data_chunks large_table cwd chunk_size fs))
  = if reaches (split_chunks chunk_size (full_dump_rows large_table) []).1
       && creates fs "chunks"
    then {["chunks"]} ∪ dirs fs else dirs fs.
Proof. rewrite full_dump_disk. apply chunk_loop_dirs. Qed.

Lemma full_dump_alternating large_table cwd chunk_size fs :
  alternating false (trace (get_large_data_chunks large_table cwd chunk_size fs))
  = true.
Proof.
  rewrite full_dump_trace. cbn [alternating]. rewrite alternating_app.
  destruct (chunk_loop_alternating cwd chunk_size (full_dump_rows large_table)
              [] 1 fs) as [-> Hp]. cbn [andb].
  pose proof (chunk_loop_value cwd chunk_size (full_dump_rows large_table) [] 1 fs)
    as Hv.
  destruct (completes _ _ _).
  - rewrite Hp, Hv by done. unfold closing_events.
    destruct (truthy _); [|done]. by destruct (to_rows _).
  - by destruct Hv as [e ->].
Qed.

Lemma full_dump_writable large_table cwd chunk_size fs m :
  writable (disk (get_large_data_chunks large_table cwd chunk_size fs)) "chunks" m
  = writable fs "chunks" m.
Proof. rewrite full_dump_disk. apply chunk_loop_writable. Qed.

(** ** Runs without a BLOB and with a folder that can be written *)







(** ** Runs that may fail: what is streamed is the start of the chunks *)

Lemma streamed_prefix ok n chunks :
  map plain (streamed ok n chunks) `prefix_of` chunks.
Proof.
  revert n. induction chunks as [|c l IH]; intros n; [done|].
  cbn [streamed]. destruct (to_rows c) as [p|] eqn:E; [|apply prefix_nil].
  apply to_rows_Some in E as ->. cbn [map]. apply prefix_cons.
  destruct (ok n); [apply IH|apply prefix_nil].
Qed.

Lemma streamed_complete ok n chunks :
  completes ok n chunks = true → map plain (streamed ok n chunks) = chunks.
Proof.
  revert n. induction chunks as [|c l IH]; intros n Hc; [done|].
  cbn [completes streamed] in *.
  destruct (to_rows c) as [p|] eqn:E; [|done].
  apply andb_true_iff in Hc as [-> Hc]. apply to_rows_Some in E as ->.
  cbn [map]. f_equal. by apply IH.
Qed.

Lemma full_dump_streamed_prefix fs cs rows :
  map plain (full_dump_streamed fs cs rows) `prefix_of` chunks_of cs rows.
Proof.
  unfold full_dump_streamed, chunks_of, last_streamed. rewrite map_app.
  destruct (completes _ _ _) eqn:Ec; cbn [andb].
  - rewrite streamed_complete by done.
    apply prefix_app. destruct (truthy _); [|apply prefix_nil].
    destruct (to_rows _) as [p|] eqn:E; [|apply prefix_nil].
    by apply to_rows_Some in E as ->.
  - cbn. rewrite app_nil_r.
    etrans; [apply streamed_prefix|]. by apply prefix_app_r.
Qed.

(** ** [get_data_paginated] *)

Lemma paginated_rejected large_table cwd page chunk_size fs :
  accepted (page_query page chunk_size) = false →
  get_data_paginated large_table cwd page chunk_size fs
  = Ended (inl IntegrityError) fs [Execute (page_query page chunk_size)].
Proof.
  intros H. unfold get_data_paginated. by rewrite bind_execute_rejected.
Qed.

Lemma paginated_unfold large_table cwd page chunk_size fs :
  accepted (page_query page chunk_size) = true →
  get_data_paginated large_table cwd page chunk_size fs
  = let chunk := page_rows large_table page chunk_size in
    let body :=
      (if truthy chunk
       then bind (serialise chunk) (λ printed,
              bind (yield_ (chunk_line printed)) (λ _,
                generate_file cwd printed 1 "chunks_paginated"))
       else yield_ (status_line no_more_data)) fs in
    Ended (value body) (disk body) (Execute (page_query page chunk_size) :: trace body).
Proof.
  intros H. unfold get_data_paginated. rewrite bind_execute by done.
  cbv zeta. by rewrite foldl_snoc, app_nil_l.
Qed.

Lemma paginated_no_rows large_table cwd page chunk_size fs :
  accepted (page_query page chunk_size) = true →
  page_rows large_table page chunk_size = [] →
  get_data_paginated large_table cwd page chunk_size fs
  = Outcome tt fs [Execute (page_query page chunk_size);
                   Yield (status_line no_more_data)].
Proof. intros H E. rewrite paginated_unfold by done. cbv zeta. by rewrite E. Qed.

Lemma paginated_type_error large_table cwd page chunk_size fs :
  accepted (page_query page chunk_size) = true →
  page_rows large_table page chunk_size ≠ [] →
  to_rows (page_rows large_table page chunk_size) = None →
  get_data_paginated large_table cwd page chunk_size fs
  = Ended (inl TypeError) fs [Execute (page_query page chunk_size)].
Proof.
  intros H Hne E. rewrite paginated_unfold by done. cbv zeta.
  destruct (page_rows large_table page chunk_size) as [|r l] eqn:Ep; [done|].
  cbn [truthy]. unfold bind, serialise. by rewrite E.
Qed.

Lemma paginated_writes large_table cwd page chunk_size fs p :
  accepted (page_query page chunk_size) = true →
  page_rows large_table page chunk_size ≠ [] →
  to_rows (page_rows large_table page chunk_size) = Some p →
  writable fs "chunks_paginated" 1 = true →
  get_data_paginated large_table cwd page chunk_size fs
  = Outcome tt (after_write fs "chunks_paginated" 1 (file_text p))
      (Execute (page_query page chunk_size) :: Yield (chunk_line p)
       :: makedirs_events fs "chunks_paginated"
          ++ write_events cwd "chunks_paginated" 1 (file_text p)).
Proof.
  intros H Hne E Hw. rewrite paginated_unfold by done. cbv zeta.
  destruct (page_rows large_table page chunk_size) as [|r l] eqn:Ep; [done|].
  cbn [truthy]. unfold bind, serialise. rewrite E.
  unfold ret, yield_, emit, Outcome. cbn [value disk trace].
  by rewrite (generate_file_writes cwd p 1 "chunks_paginated" fs Hw).
Qed.

Lemma paginated_blocked large_table cwd page chunk_size fs p :
  accepted (page_query page chunk_size) = true →
  page_rows large_table page chunk_size ≠ [] →
  to_rows (page_rows large_table page chunk_size) = Some p →
  writable fs "chunks_paginated" 1 = false →
  ∃ e, get_data_paginated large_table cwd page chunk_size fs
       = Ended (inl e) (after_failure fs "chunks_paginated")
           (Execute (page_query page chunk_size) :: Yield (chunk_line p)
            :: makedirs_events fs "chunks_paginated").
Proof.
  intros H Hne E Hw. rewrite paginated_unfold by done. cbv zeta.
  destruct (page_rows large_table page chunk_size) as [|r l] eqn:Ep; [done|].
  destruct (generate_file_fails cwd p 1 "chunks_paginated" fs Hw) as [e He].
  exists e. cbn [truthy]. unfold bind, serialise. rewrite E.
  unfold ret, yield_, emit, Outcome. cbn [value disk trace].
  by rewrite He.
Qed.

(** ** The framework *)

Lemma serve_stream (content : M unit) media_type fs :
  trace (serve (ret (StreamingResponse content media_type)) fs) = trace (content fs)
  ∧ disk (serve (ret (StreamingResponse content media_type)) fs) = disk (content fs).
Proof.
  unfold serve, bind, ret, Outcome. cbn [value disk trace].
  destruct (value (content fs)); cbn [value disk trace]; by rewrite ?app_nil_r.
Qed.

(** ** Inputs the program accepts *)


Lemma accepted_page page chunk_size :
  (1 ≤ page)%Z → (1 ≤ chunk_size)%Z →
  (chunk_size < 2 ^ 63)%Z → ((page - 1) * chunk_size < 2 ^ 63)%Z →
  accepted (page_query page chunk_size) = true.
Proof.
  intros Hp Hc H1 H2. unfold page_query, accepted, int64.
  rewrite !bool_decide_eq_true_2; [done|lia|nia|lia|lia].
Qed.

(** * The claims *)




(** C2.  The full dump over one row, and over five rows in chunks of two:
    the short last chunk is streamed but no file is written for it. *)
Theorem full_dump_short_chunk_not_persisted :
  (let r := serve (get_bulk_data (plain (demo_table 1)) "/srv") empty_fs in
   yielded (trace r) = [chunk_line (demo_table 1)]
   ∧ written (trace r) = []
   ∧ files (disk r) = ∅)
  ∧
  (let r := get_large_data_chunks (plain (demo_table 5)) "/srv" 2 empty_fs in
   yielded (trace r)
     = [chunk_line [demo_row 1; demo_row 2];
        chunk_line [demo_row 3; demo_row 4];
        chunk_line [demo_row 5]]
   ∧ written (trace r)
     = [("chunks/part_1.json", file_text [demo_row 1; demo_row 2]);
        ("chunks/part_2.json", file_text [demo_row 3; demo_row 4])]
   ∧ files (disk r) !! "chunks/part_3.json" = None).
Proof. vm_compute. done. Qed.






(** C5.  [/count-records] answers with the number of rows of the table,
    which the LIMIT of the full dump does not bound. *)
Theorem count_records_total (large_table : list record) (fs : filesystem) :
  serve (count_records large_table) fs
    = Outcome (JSONResponse [("total_records", SInt (Z.of_nat (length large_table)))])
              fs [Execute SelectCount]
  ∧ Z.of_nat (length (full_dump_rows large_table))
    = Z.min (Z.of_nat (length large_table)) 10000.
Proof. split; [reflexivity|apply full_dump_rows_length]. Qed.

(** C6.  With [page < 1] or [chunk_size < 1] the paginated handler raises
    the 400 error with its message; nothing was executed, written or
    yielded, and the file system is as it was. *)
Theorem paginated_rejects_bad_params (large_table : list record) (cwd : string)
    (page chunk_size : Z) (fs : filesystem) :
  (page < 1 ∨ chunk_size < 1)%Z →
  serve (get_bulk_data_paginated large_table cwd page chunk_size) fs
    = Outcome (HTTPException 400 "Page and chunk_size must be greater than 0")
              fs [].
Proof.
  intros H. unfold get_bulk_data_paginated. by rewrite decide_True.
Qed.

Lemma paginated_rejects_bad_params_witness :
  (0 < 1 ∨ 100 < 1)%Z
  ∧ serve (get_bulk_data_paginated (plain (demo_table 3)) "/srv" 0 100) empty_fs
    = Outcome (HTTPException 400 "Page and chunk_size must be greater than 0")
              empty_fs [].
Proof.
  assert (0 < 1 ∨ 100 < 1)%Z as H by (left; lia).
  split; [exact H|].
  exact (paginated_rejects_bad_params (plain (demo_table 3)) "/srv" 0 100 empty_fs H).
Defined.

(** What the paginated stream yields, read off the table and the
    parameters alone. *)
Lemma paginated_yielded large_table cwd page chunk_size fs :
  yielded (trace (get_data_paginated large_table cwd page chunk_size fs))
  = if accepted (page_query page chunk_size) then
      if truthy (page_rows large_table page chunk_size) then
        match to_rows (page_rows large_table page chunk_size) with
        | Some p => [chunk_line p]
        | None => []
        end
      else [status_line no_more_data]
    else [].
Proof.
  destruct (accepted (page_query page chunk_size)) eqn:Ha;
    [|by rewrite paginated_rejected].
  destruct (page_rows large_table page chunk_size) as [|r l] eqn:Ep;
    [by rewrite paginated_no_rows|].
  cbn [truthy]. rewrite <-Ep.
  assert (page_rows large_table page chunk_size ≠ []) as Hne by (by rewrite Ep).
  destruct (to_rows (page_rows large_table page chunk_size)) as [p|] eqn:E;
    [|by rewrite paginated_type_error].
  destruct (writable fs "chunks_paginated" 1) eqn:Hw.
  - rewrite (paginated_writes _ _ _ _ _ p) by done. unfold Outcome. cbn [trace].
    change (Execute ?q :: Yield ?x :: ?t) with ([Execute q; Yield x] ++ t).
    by rewrite !yielded_app, yielded_makedirs_events, yielded_write_events.
  - destruct (paginated_blocked large_table cwd page chunk_size fs p Ha Hne E Hw)
      as [e ->]. cbn [trace].
    change (Execute ?q :: Yield ?x :: ?t) with ([Execute q; Yield x] ++ t).
    by rewrite !yielded_app, yielded_makedirs_events.
Qed.






(** C7, as stated, fails for a page far beyond the data: page [2^62]
    with [chunk_size = 4] over three rows has offset [2^64 - 4]; the
    store rejects the statement and the stream ends without a line. *)
Lemma paginated_offset_overflow :
  let large_table := plain (demo_table 3) in
  let page := (2 ^ 62)%Z in
  let r := get_data_paginated large_table "/srv" page 4 empty_fs in
  (1 ≤ page)%Z
  ∧ (Z.of_nat (length large_table) ≤ (page - 1) * 4)%Z
  ∧ page_rows large_table page 4 = []
  ∧ yielded (trace r) = []
  ∧ value r = inl IntegrityError.
Proof.
  intros large_table page r.
  assert (1 ≤ page)%Z as Hp by (vm_compute; by intros [=]).
  assert (Z.of_nat (length large_table) ≤ (page - 1) * 4)%Z as Ho
    by (vm_compute; by intros [=]).
  split; [exact Hp|]. split; [exact Ho|].
  split; [apply page_rows_empty; [exact Hp|lia|exact Ho]|].
  split; by vm_compute.
Qed.

(** C7, amended.  For [page >= 1] and [chunk_size >= 1] with
    [chunk_size] and [(page - 1) * chunk_size] below [2^63], when the
    page's query returns no row (an empty table included), the stream
    yields the one line of the status object, and no file is written:
    the file system is as it was. *)
Theorem paginated_no_more_data (large_table : list record) (cwd : string)
    (page chunk_size : Z) (fs : filesystem) :
  (1 ≤ page)%Z → (1 ≤ chunk_size)%Z →
  (chunk_size < 2 ^ 63)%Z → ((page - 1) * chunk_size < 2 ^ 63)%Z →
  page_rows large_table page chunk_size = [] →
  let r := get_data_paginated large_table cwd page chunk_size fs in
  yielded (trace r) = [status_line no_more_data]
  ∧ status_line no_more_data
    = "{" +:+ String DQ ("message" +:+ String DQ (": " +:+ String DQ
        ("No more data available" +:+ String DQ ("}" +:+ String LF ""))))
  ∧ written (trace r) = []
  ∧ disk r = fs.
Proof.
  intros Hp Hc H1 H2 Hempty r. unfold r.
  by rewrite paginated_no_rows by (done || by apply accepted_page).
Qed.

Lemma paginated_no_more_data_witness :
  (1 ≤ 1)%Z ∧ (1 < 2 ^ 63)%Z ∧ ((1 - 1) * 1 < 2 ^ 63)%Z
  ∧ page_rows [] 1 1 = []
  ∧ yielded (trace (get_data_paginated [] "/srv" 1 1 empty_fs))
    = [status_line no_more_data]
  ∧ written (trace (get_data_paginated [] "/srv" 1 1 empty_fs)) = []
  ∧ disk (get_data_paginated [] "/srv" 1 1 empty_fs) = empty_fs.
Proof.
  assert (1 ≤ 1)%Z as H1 by lia. assert (1 < 2 ^ 63)%Z as H2 by lia.
  assert ((1 - 1) * 1 < 2 ^ 63)%Z as H3 by lia.
  assert (page_rows [] 1 1 = []) as H by reflexivity.
  split; [exact H1|]. split; [exact H2|]. split; [exact H3|]. split; [exact H|].
  destruct (paginated_no_more_data [] "/srv" 1 1 empty_fs H1 H1 H2 H3 H)
    as (Hy & _ & Hw & Hd).
  split; [exact Hy|]. split; [exact Hw|exact Hd].
Defined.

(** C8, as stated, fails when a regular file named [chunks_paginated] is
    in the way: the page has rows and is streamed, but opening
    [part_1.json] raises and nothing is written. *)
Lemma paginated_blocked_folder :
  let large_table := plain (demo_table 5) in
  let fs := blocked_fs "chunks_paginated" in
  let r := get_data_paginated large_table "/srv" 1 2 fs in
  page_rows large_table 1 2 ≠ []
  ∧ yielded (trace r) = [chunk_line [demo_row 1; demo_row 2]]
  ∧ written (trace r) = []
  ∧ files (disk r) !! "chunks_paginated/part_1.json" = None
  ∧ value r = inl NotADirectoryError.
Proof. vm_compute. repeat split; try done; by intros [=]. Qed.

(** C8, amended.  A paginated call that the store accepts ([page] and
    [chunk_size] at least 1, [chunk_size] and the offset below [2^63]),
    whose page has rows, none with a BLOB, and whose folder
    [chunks_paginated] can be written, writes the rows once, to
    [chunks_paginated/part_1.json], replacing whatever was there; the
    same call again writes the same text to the same path and leaves the
    file system as the first call left it. *)
Theorem paginated_persists_part_1 (large_table : list record) (cwd : string)
    (page chunk_size : Z) (fs : filesystem) (chunk : list row) :
  (1 ≤ page)%Z → (1 ≤ chunk_size)%Z →
  (chunk_size < 2 ^ 63)%Z → ((page - 1) * chunk_size < 2 ^ 63)%Z →
  page_rows large_table page chunk_size ≠ [] →
  to_rows (page_rows large_table page chunk_size) = Some chunk →
  writable fs "chunks_paginated" 1 = true →
  let path := "chunks_paginated/part_1.json" in
  let r1 := get_data_paginated large_table cwd page chunk_size fs in
  let r2 := get_data_paginated large_table cwd page chunk_size (disk r1) in
  written (trace r1) = [(path, file_text chunk)]
  ∧ files (disk r1) = <[path := file_text chunk]> (files fs)
  ∧ written (trace r2) = [(path, file_text chunk)]
  ∧ disk r2 = disk r1.
Proof.
  intros Hp Hc H1 H2 Hne Hrows Hw path r1 r2.
  pose proof (accepted_page page chunk_size Hp Hc H1 H2) as Ha.
  assert (∀ fs', writable fs' "chunks_paginated" 1 = true →
            written (trace (get_data_paginated large_table cwd page chunk_size fs'))
            = [(path, file_text chunk)]
            ∧ disk (get_data_paginated large_table cwd page chunk_size fs')
              = after_write fs' "chunks_paginated" 1 (file_text chunk)) as Hrun.
  { intros fs' Hw'. rewrite (paginated_writes _ _ _ _ _ chunk) by done.
    unfold Outcome. cbn [trace disk]. split; [|done].
    change (Execute ?q :: Yield ?x :: ?t) with ([Execute q; Yield x] ++ t).
    by rewrite !written_app, written_makedirs_events, written_write_events. }
  destruct (Hrun fs Hw) as [Hw1 Hd1].
  assert (writable (disk r1) "chunks_paginated" 1 = true) as Hw'
    by (unfold r1; by rewrite Hd1, writable_after_write).
  destruct (Hrun (disk r1) Hw') as [Hw2 Hd2].
  split; [exact Hw1|]. split; [unfold r1; by rewrite Hd1|]. split; [exact Hw2|].
  unfold r2. rewrite Hd2. unfold r1. rewrite Hd1.
  unfold after_write at 1. rewrite creates_after_write.
  unfold after_write. cbn [dirs files]. by rewrite insert_insert_eq.
Qed.

Lemma paginated_persists_part_1_witness :
  (1 ≤ 3)%Z ∧ (1 ≤ 2)%Z ∧ (2 < 2 ^ 63)%Z ∧ ((3 - 1) * 2 < 2 ^ 63)%Z
  ∧ page_rows (plain (demo_table 5)) 3 2 ≠ []
  ∧ to_rows (page_rows (plain (demo_table 5)) 3 2) = Some [demo_row 5]
  ∧ writable empty_fs "chunks_paginated" 1 = true
  ∧ written (trace (get_data_paginated (plain (demo_table 5)) "/srv" 3 2 empty_fs))
    = [("chunks_paginated/part_1.json", file_text [demo_row 5])].
Proof.
  assert (1 ≤ 3)%Z as H3 by lia. assert (1 ≤ 2)%Z as H2 by lia.
  assert (2 < 2 ^ 63)%Z as Hb by lia.
  assert ((3 - 1) * 2 < 2 ^ 63)%Z as Ho by lia.
  assert (page_rows (plain (demo_table 5)) 3 2 ≠ []) as Hne
    by (vm_compute; discriminate).
  assert (to_rows (page_rows (plain (demo_table 5)) 3 2) = Some [demo_row 5])
    as Hr by reflexivity.
  assert (writable empty_fs "chunks_paginated" 1 = true) as Hw by reflexivity.
  split; [exact H3|]. split; [exact H2|]. split; [exact Hb|]. split; [exact Ho|].
  split; [exact Hne|]. split; [exact Hr|]. split; [exact Hw|].
  exact (proj1 (paginated_persists_part_1 (plain (demo_table 5)) "/srv" 3 2
                  empty_fs [demo_row 5] H3 H2 Hb Ho Hne Hr Hw)).
Defined.







(** ** Further properties of the program *)

(** The four shapes of a run of [get_data_paginated]: the statement is
    rejected or the page does not serialise; there are no rows; the
    page's file is written; the page's file cannot be written. *)
Lemma paginated_trace_cases large_table cwd page chunk_size fs :
  let q := page_query page chunk_size in
  trace (get_data_paginated large_table cwd page chunk_size fs) = [Execute q]
  ∨ trace (get_data_paginated large_table cwd page chunk_size fs)
    = [Execute q; Yield (status_line no_more_data)]
  ∨ ∃ p,
      trace (get_data_paginated large_table cwd page chunk_size fs)
      = Execute q :: Yield (chunk_line p)
        :: makedirs_events fs "chunks_paginated"
           ++ (if writable fs "chunks_paginated" 1
               then write_events cwd "chunks_paginated" 1 (file_text p)
               else []).
Proof.
  intros q. destruct (accepted (page_query page chunk_size)) eqn:Ha.
  2: { left. by rewrite paginated_rejected. }
  destruct (decide (page_rows large_table page chunk_size = [])) as [He|Hne].
  { right; left. by rewrite paginated_no_rows. }
  destruct (to_rows (page_rows large_table page chunk_size)) as [p|] eqn:Hr.
  2: { left. by rewrite paginated_type_error. }
  right; right. exists p.
  destruct (writable fs "chunks_paginated" 1) eqn:Hw.
  - by rewrite (paginated_writes _ _ _ _ _ p).
  - destruct (paginated_blocked large_table cwd page chunk_size fs p Ha Hne Hr Hw)
      as [e ->]. cbn [trace]. by rewrite app_nil_r.
Qed.

Lemma paginated_alternating large_table cwd page chunk_size fs :
  alternating false (trace (get_data_paginated large_table cwd page chunk_size fs))
  = true.
Proof.
  destruct (paginated_trace_cases large_table cwd page chunk_size fs)
    as [->|[->|[p ->]]]; [done..|].
  unfold makedirs_events.
  by destruct (creates fs "chunks_paginated"), (writable fs "chunks_paginated" 1).
Qed.

(** X2.  The last writer wins: [generate_file] under a chunk number after
    an earlier [generate_file] under the same number and folder leaves
    the file system as if the earlier call had not happened. *)
Theorem generate_file_overwrite (cwd1 cwd2 : string) (chunk1 chunk2 : list row)
    (n : Z) (folder : string) (fs : filesystem) :
  disk (generate_file cwd2 chunk2 n folder
          (disk (generate_file cwd1 chunk1 n folder fs)))
  = disk (generate_file cwd2 chunk2 n folder fs).
Proof.
  destruct (writable fs folder n) eqn:Hw.
  - rewrite (generate_file_writes cwd1), (generate_file_writes cwd2 _ _ _ fs) by done.
    unfold Outcome. cbn [disk].
    rewrite generate_file_writes by (by rewrite writable_after_write).
    unfold Outcome. cbn [disk]. unfold after_write at 1.
    rewrite creates_after_write. unfold after_write. cbn [dirs files].
    by rewrite insert_insert_eq.
  - destruct (generate_file_fails cwd1 chunk1 n folder fs Hw) as [e1 ->].
    destruct (generate_file_fails cwd2 chunk2 n folder fs Hw) as [e2 ->].
    cbn [disk].
    destruct (generate_file_fails cwd2 chunk2 n folder (after_failure fs folder))
      as [e3 ->]; [by rewrite writable_after_failure|].
    cbn [disk]. unfold after_failure at 1. by rewrite creates_after_failure.
Qed.

(** X5.  [/bulk-data] answers with at most 10 lines, each holding between
    1 and 1000 records, however large the table is. *)
Theorem bulk_data_bounded (large_table : list record) (cwd : string)
    (fs : filesystem) :
  ∃ chunks : list (list row),
    yielded (trace (serve (get_bulk_data large_table cwd) fs))
      = map chunk_line chunks
    ∧ length chunks ≤ 10
    ∧ Forall (λ c, 1 ≤ length c ≤ 1000) chunks.
Proof.
  exists (full_dump_streamed fs 1000 (full_dump_rows large_table)).
  unfold get_bulk_data.
  rewrite (proj1 (serve_stream _ _ _)), full_dump_yielded.
  pose proof (full_dump_streamed_prefix fs 1000 (full_dump_rows large_table)) as Hp.
  split; [done|]. split.
  - apply prefix_length in Hp. rewrite length_map in Hp.
    pose proof (chunks_of_length 1000 (full_dump_rows large_table) ltac:(lia)) as H.
    pose proof (full_dump_rows_length large_table) as HR.
    unfold ceil_div in H.
    assert ((Z.of_nat (length (full_dump_rows large_table)) + 1000 - 1) / 1000 < 11)%Z
      by (apply Z.div_lt_upper_bound; lia).
    lia.
  - pose proof (chunks_of_bounds 1000 (full_dump_rows large_table) ltac:(lia)) as Hb.
    destruct Hp as [k Hk]. rewrite Hk in Hb. apply Forall_app in Hb as [Hb _].
    apply Forall_fmap in Hb. eapply Forall_impl; [exact Hb|].
    intros c Hc. cbn in Hc. rewrite length_plain in Hc. lia.
Qed.

(** X6.  At every point of a run of either stream, the files written so
    far are at most the lines yielded so far, and at most one line has
    been yielded whose file is not written: a chunk's file is written
    after the chunk is yielded and before the next one is. *)
Theorem yield_then_write (large_table : list record) (cwd : string)
    (page chunk_size : Z) (fs : filesystem) (p : list event) :
  p `prefix_of` trace (get_large_data_chunks large_table cwd chunk_size fs)
  ∨ p `prefix_of` trace (get_data_paginated large_table cwd page chunk_size fs) →
  length (written p) ≤ length (yielded p) ≤ length (written p) + 1.
Proof.
  intros [H|H]; eapply alternating_prefix_counts; try exact H.
  - apply full_dump_alternating.
  - apply paginated_alternating.
Qed.

Lemma yield_then_write_witness :
  (take 2 (trace (get_large_data_chunks (plain (demo_table 5)) "/srv" 2 empty_fs))
     `prefix_of` trace (get_large_data_chunks (plain (demo_table 5)) "/srv" 2 empty_fs)
   ∨ take 2 (trace (get_large_data_chunks (plain (demo_table 5)) "/srv" 2 empty_fs))
     `prefix_of` trace (get_data_paginated (plain (demo_table 5)) "/srv" 1 2 empty_fs))
  ∧ length (written (take 2 (trace (get_large_data_chunks (plain (demo_table 5)) "/srv" 2 empty_fs))))
    ≤ length (yielded (take 2 (trace (get_large_data_chunks (plain (demo_table 5)) "/srv" 2 empty_fs))))
    ≤ length (written (take 2 (trace (get_large_data_chunks (plain (demo_table 5)) "/srv" 2 empty_fs)))) + 1.
Proof.
  assert (take 2 (trace (get_large_data_chunks (plain (demo_table 5)) "/srv" 2 empty_fs))
            `prefix_of` trace (get_large_data_chunks (plain (demo_table 5)) "/srv" 2 empty_fs)
          ∨ take 2 (trace (get_large_data_chunks (plain (demo_table 5)) "/srv" 2 empty_fs))
            `prefix_of` trace (get_data_paginated (plain (demo_table 5)) "/srv" 1 2 empty_fs))
    as H by (left; apply prefix_take).
  split; [exact H|].
  exact (yield_then_write (plain (demo_table 5)) "/srv" 1 2 empty_fs _ H).
Defined.

(** The files of a full dump are part files of [chunks]. *)
Lemma full_dump_written_paths large_table cwd chunk_size fs p :
  p ∈ (written (trace (get_large_data_chunks large_table cwd chunk_size fs))).*1 →
  ∃ n, p = part_path "chunks" n.
Proof.
  rewrite full_dump_written. intros H.
  apply list_elem_of_fmap in H as ([q v] & -> & H).
  apply list_elem_of_fmap in H as ([n c] & [= -> _] & _). by exists n.
Qed.

Lemma full_dump_created large_table cwd chunk_size fs :
  reaches (split_chunks chunk_size (full_dump_rows large_table) []).1 = true →
  creates (disk (get_large_data_chunks large_table cwd chunk_size fs)) "chunks"
  = false.
Proof.
  intros Hr. unfold creates.
  rewrite bool_decide_eq_true_2 by done. cbn [andb].
  apply negb_false_iff. unfold path_exists.
  rewrite bool_decide_eq_true_2 by done. cbn [andb].
  rewrite full_dump_dirs, full_dump_files, Hr. cbn [andb].
  rewrite apply_writes_lookup_other.
  2: { intros H. apply full_dump_written_paths in H as [n H].
       symmetry in H. by apply part_path_ne_folder in H. }
  destruct (creates fs "chunks") eqn:Hc.
  - rewrite bool_decide_eq_true_2; [done|]. apply elem_of_union_l.
    by apply elem_of_singleton.
  - unfold creates in Hc. rewrite bool_decide_eq_true_2 in Hc by done.
    cbn [andb] in Hc. apply negb_false_iff in Hc. unfold path_exists in Hc.
    by rewrite bool_decide_eq_true_2 in Hc by done.
Qed.

(** The three ways a run of [get_data_paginated] leaves the disk. *)
Lemma paginated_disk_cases large_table cwd page chunk_size fs :
  disk (get_data_paginated large_table cwd page chunk_size fs) = fs
  ∨ disk (get_data_paginated large_table cwd page chunk_size fs)
    = after_failure fs "chunks_paginated"
  ∨ ∃ text,
      writable fs "chunks_paginated" 1 = true
      ∧ disk (get_data_paginated large_table cwd page chunk_size fs)
        = after_write fs "chunks_paginated" 1 text.
Proof.
  destruct (accepted (page_query page chunk_size)) eqn:Ha.
  2: { left. by rewrite paginated_rejected. }
  destruct (decide (page_rows large_table page chunk_size = [])) as [He|Hne].
  { left. by rewrite paginated_no_rows. }
  destruct (to_rows (page_rows large_table page chunk_size)) as [p|] eqn:Hr.
  2: { left. by rewrite paginated_type_error. }
  right. destruct (writable fs "chunks_paginated" 1) eqn:Hw.
  - right. exists (file_text p). split; [done|].
    by rewrite (paginated_writes _ _ _ _ _ p).
  - left.
    by destruct (paginated_blocked large_table cwd page chunk_size fs p Ha Hne Hr Hw)
      as [e ->].
Qed.

(** X8.  A second full dump over the same table with the same chunk size
    leaves the file system exactly as the first one left it. *)
Theorem full_dump_rerun (large_table : list record) (cwd1 cwd2 : string)
    (chunk_size : Z) (fs : filesystem) :
  let fs1 := disk (get_large_data_chunks large_table cwd1 chunk_size fs) in
  disk (get_large_data_chunks large_table cwd2 chunk_size fs1) = fs1.
Proof.
  intros fs1. apply filesystem_eq.
  - rewrite full_dump_dirs.
    destruct (reaches _) eqn:E; [|done].
    unfold fs1. by rewrite full_dump_created.
  - rewrite full_dump_files. unfold fs1. rewrite full_dump_files.
    rewrite !full_dump_written.
    rewrite (persisted_ext _ (writable fs "chunks"))
      by (intros m; apply full_dump_writable).
    apply apply_writes_twice.
Qed.

(** X12.  The two exports keep to their own files: the full dump changes
    no file but [chunks/part_<n>.json], a paginated call changes no file
    but [chunks_paginated/part_1.json], and neither removes a
    directory. *)
Theorem exports_frame (large_table : list record) (cwd : string)
    (page chunk_size : Z) (fs : filesystem) (p : string) :
  let full := disk (get_large_data_chunks large_table cwd chunk_size fs) in
  let paginated := disk (get_data_paginated large_table cwd page chunk_size fs) in
  ((∀ n, p ≠ part_path "chunks" n) → files full !! p = files fs !! p)
  ∧ (p ≠ "chunks_paginated/part_1.json" → files paginated !! p = files fs !! p)
  ∧ dirs fs ⊆ dirs full
  ∧ dirs fs ⊆ dirs paginated.
Proof.
  intros full paginated. split; [|split; [|split]].
  - intros Hp. unfold full. rewrite full_dump_files.
    apply apply_writes_lookup_other.
    intros Hin. apply full_dump_written_paths in Hin as [n ->]. exact (Hp _ eq_refl).
  - intros Hp. unfold paginated.
    destruct (paginated_disk_cases large_table cwd page chunk_size fs)
      as [->|[->|(text & _ & ->)]]; [done..|].
    unfold after_write. cbn [files]. by apply lookup_insert_ne.
  - unfold full. rewrite full_dump_dirs.
    destruct (_ && _); [apply union_subseteq_r|done].
  - unfold paginated.
    destruct (paginated_disk_cases large_table cwd page chunk_size fs)
      as [->|[->|(text & _ & ->)]]; [done|..];
      unfold after_failure, after_write; cbn [dirs];
      (destruct (creates _ _); [apply union_subseteq_r|done]).
Qed.

Lemma exports_frame_witness :
  (∀ n, "chunks_paginated/part_1.json" ≠ part_path "chunks" n)
  ∧ files (disk (get_large_data_chunks (plain (demo_table 5)) "/srv" 2
                   (disk (get_data_paginated (plain (demo_table 5)) "/srv" 1 2 empty_fs))))
      !! "chunks_paginated/part_1.json"
    = Some (file_text [demo_row 1; demo_row 2]).
Proof.
  assert (∀ n, "chunks_paginated/part_1.json" ≠ part_path "chunks" n) as H
    by (intros n; rewrite part_path_chunks; discriminate).
  split; [exact H|].
  rewrite (proj1 (exports_frame (plain (demo_table 5)) "/srv" 1 2
                    (disk (get_data_paginated (plain (demo_table 5)) "/srv" 1 2 empty_fs))
                    "chunks_paginated/part_1.json") H).
  reflexivity.
Defined.

(** X13.  Every line either stream yields is printable ASCII ([' '] to
    ['~']) followed by one line break, whatever characters the rows
    hold. *)
Theorem streamed_lines_ascii (large_table : list record) (cwd : string)
    (page chunk_size : Z) (fs : filesystem) :
  Forall (λ line, ∃ payload,
            line = payload +:+ String LF ""
            ∧ all_chars printable payload = true)
         (yielded (trace (get_large_data_chunks large_table cwd chunk_size fs))
          ++ yielded (trace (get_data_paginated large_table cwd page chunk_size fs))).
Proof.
  rewrite full_dump_yielded, paginated_yielded. apply Forall_app. split.
  - apply Forall_map, Forall_true. intros c. eexists. split; [reflexivity|].
    apply json_dumps_printable.
  - destruct (accepted _); [|constructor].
    destruct (truthy _); [destruct (to_rows _)|]; repeat constructor; eexists;
      (split; [reflexivity|apply json_dumps_printable]).
Qed.

Lemma creates_path_exists fs folder :
  creates fs folder = true → path_exists fs folder = false.
Proof.
  unfold creates. intros H. apply andb_true_iff in H as [_ H].
  by apply negb_true_iff in H.
Qed.

(** X14.  A run of either stream calls [os.makedirs] at most once, and
    not at all when the folder of the stream is already there. *)
Theorem makedirs_guarded (large_table : list record) (cwd : string)
    (page chunk_size : Z) (fs : filesystem) :
  let full := made_dirs (trace (get_large_data_chunks large_table cwd chunk_size fs)) in
  let paginated :=
    made_dirs (trace (get_data_paginated large_table cwd page chunk_size fs)) in
  (full = [] ∨ full = ["chunks"] ∧ path_exists fs "chunks" = false)
  ∧ (paginated = []
     ∨ paginated = ["chunks_paginated"]
       ∧ path_exists fs "chunks_paginated" = false).
Proof.
  intros full paginated. split.
  - unfold full. rewrite full_dump_made_dirs.
    destruct (reaches _); [|by left]. cbn [andb].
    destruct (creates fs "chunks") eqn:E; [|by left].
    right. split; [done|]. by apply creates_path_exists.
  - unfold paginated.
    destruct (paginated_trace_cases large_table cwd page chunk_size fs)
      as [->|[->|[p ->]]]; [by left..|].
    change (made_dirs (Execute ?q :: Yield ?l :: ?t)) with (made_dirs t).
    rewrite made_dirs_app, made_dirs_makedirs_events.
    assert (made_dirs (if writable fs "chunks_paginated" 1
                       then write_events cwd "chunks_paginated" 1 (file_text p)
                       else []) = []) as -> by (by destruct (writable _ _ _)).
    destruct (creates fs "chunks_paginated") eqn:E; [|by left].
    right. split; [done|]. by apply creates_path_exists.
Qed.

(** X15.  The text of a chunk determines the chunk: two chunks with the
    same streamed line, or with the same file text, are the same list of
    rows. *)
Theorem chunk_text_determines_chunk (chunk1 chunk2 : list row) :
  chunk_line chunk1 = chunk_line chunk2 ∨ file_text chunk1 = file_text chunk2 →
  chunk1 = chunk2.
Proof.
  intros [H|H].
  - unfold chunk_line, json_dumps in H. by apply encode_list_inj in H as [-> _].
  - unfold file_text, json_dumps in H.
    apply (f_equal (λ s, s +:+ "")) in H. by apply encode_list_inj in H as [-> _].
Qed.

Lemma chunk_text_determines_chunk_witness :
  (chunk_line (demo_table 2) = chunk_line [demo_row 1; demo_row 2]
   ∨ file_text (demo_table 2) = file_text [demo_row 1; demo_row 2])
  ∧ demo_table 2 = [demo_row 1; demo_row 2].
Proof.
  assert (chunk_line (demo_table 2) = chunk_line [demo_row 1; demo_row 2]
          ∨ file_text (demo_table 2) = file_text [demo_row 1; demo_row 2]) as H
    by (left; reflexivity).
  split; [exact H|].
  exact (chunk_text_determines_chunk _ _ H).
Defined.










(** ** Pages and chunks *)





(** X11.  With [total_records] the number [/count-records] reports, and
    [chunk_size] and the offset below [2^63], page [p] of size
    [chunk_size] answers with the status object exactly when [p] is
    beyond [ceil(total_records / chunk_size)]. *)
Theorem pages_available (large_table : list record) (cwd : string)
    (page chunk_size : Z) (fs : filesystem) :
  (1 ≤ page)%Z → (1 ≤ chunk_size)%Z →
  (chunk_size < 2 ^ 63)%Z → ((page - 1) * chunk_size < 2 ^ 63)%Z →
  ∃ total_records : Z,
    value (count_records large_table fs)
      = inr (JSONResponse [("total_records", SInt total_records)])
    ∧ (yielded (trace (get_data_paginated large_table cwd page chunk_size fs))
         = [status_line no_more_data]
       ↔ (ceil_div total_records chunk_size < page)%Z).
Proof.
  intros Hp Hc H1 H2. exists (Z.of_nat (length large_table)). split; [done|].
  rewrite ceil_div_lt by lia. rewrite paginated_yielded, accepted_page by done.
  split.
  - intros H.
    destruct (decide (Z.of_nat (length large_table) ≤ (page - 1) * chunk_size)%Z)
      as [|Hn]; [done|].
    pose proof (page_rows_nonempty large_table page chunk_size Hp Hc ltac:(lia)).
    destruct (page_rows large_table page chunk_size) as [|r l]; [done|].
    cbn [truthy] in H. destruct (to_rows (r :: l)); [|done].
    apply (inj (λ x, [x])) in H.
    by apply chunk_line_ne_status_line in H.
  - intros H. by rewrite page_rows_empty.
Qed.

Lemma pages_available_witness :
  (1 ≤ 4)%Z ∧ (1 ≤ 2)%Z ∧ (2 < 2 ^ 63)%Z ∧ ((4 - 1) * 2 < 2 ^ 63)%Z
  ∧ ∃ total_records : Z,
      value (count_records (plain (demo_table 5)) empty_fs)
        = inr (JSONResponse [("total_records", SInt total_records)])
      ∧ (yielded (trace (get_data_paginated (plain (demo_table 5)) "/srv" 4 2 empty_fs))
           = [status_line no_more_data]
         ↔ (ceil_div total_records 2 < 4)%Z).
Proof.
  assert (1 ≤ 4)%Z as H4 by lia. assert (1 ≤ 2)%Z as H2 by lia.
  assert (2 < 2 ^ 63)%Z as Hb by lia. assert ((4 - 1) * 2 < 2 ^ 63)%Z as Ho by lia.
  split; [exact H4|]. split; [exact H2|]. split; [exact Hb|]. split; [exact Ho|].
  exact (pages_available (plain (demo_table 5)) "/srv" 4 2 empty_fs H4 H2 Hb Ho).
Defined.




(** ** One page after another *)

Lemma paginated_disk_reached large_table cwd page chunk_size fs p :
  accepted (page_query page chunk_size) = true →
  page_rows large_table page chunk_size ≠ [] →
  to_rows (page_rows large_table page chunk_size) = Some p →
  disk (get_data_paginated large_table cwd page chunk_size fs)
  = if writable fs "chunks_paginated" 1
    then after_write fs "chunks_paginated" 1 (file_text p)
    else after_failure fs "chunks_paginated".
Proof.
  intros Ha Hne Hr. destruct (writable fs "chunks_paginated" 1) eqn:Hw.
  - by rewrite (paginated_writes _ _ _ _ _ p).
  - by destruct (paginated_blocked large_table cwd page chunk_size fs p Ha Hne Hr Hw)
      as [e ->].
Qed.

(** X16.  A paginated call whose statement the database accepts and that
    finds rows without a BLOB leaves the file system as if no paginated
    call had come before it: the file of the earlier page, whatever its
    page number, chunk size or table, is replaced. *)
Theorem paginated_last_page_wins (table1 table2 : list record) (cwd1 cwd2 : string)
    (page1 size1 page2 size2 : Z) (fs : filesystem) :
  (1 ≤ page2)%Z → (1 ≤ size2)%Z →
  (size2 < 2 ^ 63)%Z → ((page2 - 1) * size2 < 2 ^ 63)%Z →
  page_rows table2 page2 size2 ≠ [] →
  is_Some (to_rows (page_rows table2 page2 size2)) →
  disk (get_data_paginated table2 cwd2 page2 size2
          (disk (get_data_paginated table1 cwd1 page1 size1 fs)))
  = disk (get_data_paginated table2 cwd2 page2 size2 fs).
Proof.
  intros Hp Hc H1 H2 Hne [p Hr].
  pose proof (accepted_page page2 size2 Hp Hc H1 H2) as Ha.
  rewrite !(paginated_disk_reached table2 _ _ _ _ p) by done.
  destruct (paginated_disk_cases table1 cwd1 page1 size1 fs)
    as [->|[->|(text & Hw & ->)]]; [done|..].
  - rewrite writable_after_failure.
    destruct (writable fs "chunks_paginated" 1).
    + unfold after_write at 1. rewrite creates_after_failure.
      by unfold after_failure, after_write.
    + unfold after_failure at 1. by rewrite creates_after_failure.
  - rewrite writable_after_write, Hw.
    unfold after_write at 1. rewrite creates_after_write.
    unfold after_write. cbn [dirs files]. by rewrite insert_insert_eq.
Qed.

Lemma paginated_last_page_wins_witness :
  (1 ≤ 3)%Z ∧ (1 ≤ 2)%Z ∧ (2 < 2 ^ 63)%Z ∧ ((3 - 1) * 2 < 2 ^ 63)%Z
  ∧ page_rows (plain (demo_table 5)) 3 2 ≠ []
  ∧ is_Some (to_rows (page_rows (plain (demo_table 5)) 3 2))
  ∧ files (disk (get_data_paginated (plain (demo_table 5)) "/srv" 3 2
                   (disk (get_data_paginated (plain (demo_table 5)) "/srv" 1 2
                            empty_fs))))
      !! "chunks_paginated/part_1.json"
    = Some (file_text [demo_row 5]).
Proof.
  assert (1 ≤ 3)%Z as H3 by lia. assert (1 ≤ 2)%Z as H2 by lia.
  assert (2 < 2 ^ 63)%Z as Hb by lia. assert ((3 - 1) * 2 < 2 ^ 63)%Z as Ho by lia.
  assert (page_rows (plain (demo_table 5)) 3 2 ≠ []) as Hne
    by (vm_compute; discriminate).
  assert (is_Some (to_rows (page_rows (plain (demo_table 5)) 3 2))) as Hs
    by (vm_compute; eauto).
  split; [exact H3|]. split; [exact H2|]. split; [exact Hb|]. split; [exact Ho|].
  split; [exact Hne|]. split; [exact Hs|].
  rewrite (paginated_last_page_wins (plain (demo_table 5)) (plain (demo_table 5))
             "/srv" "/srv" 1 2 3 2 empty_fs H3 H2 Hb Ho Hne Hs).
  reflexivity.
Defined.
